(** * The data-store server: parser, table files and command handler

    A shallow embedding of the TCP record store (the file that defines
    [loadData], [saveData], [sqlParser] and the [net.createServer] data
    handler), and the properties of it that the specification states.

    Modelling conventions.
    - A JavaScript string is a sequence of UTF-16 code units; the model
      works with code units below 256, one [ascii] each, so a [string] of
      Rocq is a JavaScript string over that range.
    - A JavaScript number that holds a record id is an integer of [Z]; the
      server only ever computes [max + 1] on ids and [parseInt] on a run of
      digits, which are exact on integers up to [2^53].
    - [undefined] is [None]: a property that is absent and a property whose
      value is [undefined] read the same and print the same in
      [JSON.stringify].
    - A response is the JSON value handed to [socket.write], before it is
      printed and terminated by a newline. *)

From Stdlib Require Import ZArith Ascii String.
From Stdlib Require DecimalString DecimalZ DecimalPos DecimalFacts.
From stdpp Require Import base option list strings gmap.

Local Open Scope Z_scope.

(** ** JavaScript strings *)

Module Js.

(** The code units below 256 that [String.prototype.trim] strips: TAB, LF,
    VT, FF, CR, SPACE and NO-BREAK SPACE. *)
Definition is_white_space (c : ascii) : bool :=
  match c with
  | "009" | "010" | "011" | "012" | "013" | " " | "160" => true
  | _ => false
  end%char.

(** [\w] is [[A-Za-z0-9_]], also under the [i] flag of a pattern without
    the [u] flag. *)
Definition is_word (c : ascii) : bool :=
  let n := N_of_ascii c in
  ((48 <=? n) && (n <=? 57) || (65 <=? n) && (n <=? 90)
   || (97 <=? n) && (n <=? 122) || (n =? 95))%N.

(** [\d] is [[0-9]]. *)
Definition is_digit (c : ascii) : bool :=
  let n := N_of_ascii c in ((48 <=? n) && (n <=? 57))%N.

(** [[^)]] *)
Definition not_close_paren (c : ascii) : bool :=
  negb (N_of_ascii c =? 41)%N.

(** The canonical form of a code unit under the [i] flag: its upper case.
    A code unit of 128 and above never canonicalizes to an ASCII one, so
    against the ASCII literals of the three patterns only the letters
    [a-z] and [A-Z] are folded. *)
Definition canonicalize (c : ascii) : ascii :=
  let n := N_of_ascii c in
  if ((97 <=? n) && (n <=? 122))%N then ascii_of_N (n - 32) else c.

Fixpoint trimStart (s : string) : string :=
  match s with
  | String c s' => if is_white_space c then trimStart s' else s
  | EmptyString => EmptyString
  end.

Fixpoint trimEnd (s : string) : string :=
  match s with
  | EmptyString => EmptyString
  | String c s' =>
      match trimEnd s' with
      | EmptyString => if is_white_space c then EmptyString else String c EmptyString
      | r => String c r
      end
  end.

Definition trim (s : string) : string := trimEnd (trimStart s).

(** [s.split(sep)] for a separator of one code unit: the pieces between
    the separators, always at least one piece. *)
Fixpoint split (sep : ascii) (s : string) : list string :=
  match s with
  | EmptyString => [EmptyString]
  | String c s' =>
      if decide (c = sep) then EmptyString :: split sep s'
      else match split sep s' with
           | piece :: pieces => String c piece :: pieces
           | [] => [String c EmptyString]
           end
  end.

(** [parseInt] on a run of decimal digits.  The number is the one the
    digits denote as long as it is a safe integer, which a run of at most
    15 digits is; the runtime rounds longer runs, and the properties of
    ids are stated for short runs. *)
Definition digit_value (c : ascii) : Z := Z.of_N (N_of_ascii c) - 48.

Fixpoint parseInt_from (acc : Z) (s : string) : Z :=
  match s with
  | EmptyString => acc
  | String c s' => parseInt_from (10 * acc + digit_value c) s'
  end.

Definition parseInt (s : string) : Z := parseInt_from 0 s.

End Js.

(** ** The patterns of [sqlParser]

    The three patterns are anchored at both ends and are sequences of
    literals and of capturing groups [(cls+)] over a character class.
    Every group in them is followed by a literal that starts with a code
    unit outside the class, or by [$], so the greedy run of a group is the
    only run with which the rest can match: [exec] scans from left to
    right and never has to backtrack. *)

Module Regex.

Inductive item :=
  | Lit (pat : string)
  | Group (cls : ascii → bool).

(** A literal of the pattern, compared under the [i] flag; the rest of the
    input on success. *)
Fixpoint lit (pat s : string) : option string :=
  match pat, s with
  | EmptyString, _ => Some s
  | String p pat', String c s' =>
      if decide (Js.canonicalize p = Js.canonicalize c) then lit pat' s' else None
  | String _ _, EmptyString => None
  end.

(** The longest prefix whose code units are all in the class, and the rest. *)
Fixpoint span (cls : ascii → bool) (s : string) : string * string :=
  match s with
  | String c s' =>
      if cls c then let '(run, rest) := span cls s' in (String c run, rest)
      else (EmptyString, s)
  | EmptyString => (EmptyString, EmptyString)
  end.

(** [(cls+)]: a greedy run of at least one code unit. *)
Definition plus (cls : ascii → bool) (s : string) : option (string * string) :=
  match span cls s with
  | (EmptyString, _) => None
  | (run, rest) => Some (run, rest)
  end.

(** The captures of [/^...$/i] on the input, in order. *)
Fixpoint captures (re : list item) (s : string) : option (list string) :=
  match re with
  | [] => match s with EmptyString => Some [] | String _ _ => None end
  | Lit pat :: re => s ← lit pat s; captures re s
  | Group cls :: re =>
      '(run, s) ← plus cls s;
      groups ← captures re s;
      Some (run :: groups)
  end.

(** [s.match(re)]: the array of the whole match and the captures, or
    [null]. *)
Definition exec (re : list item) (s : string) : option (list string) :=
  (s ::.) <$> captures re s.

(** [/^SELECT \* FROM (\w+)$/i] *)
Definition selectAllRegex : list item :=
  [Lit "SELECT * FROM "; Group Js.is_word].

(** [/^SELECT \* FROM (\w+) WHERE id = (\d+)$/i] *)
Definition selectWhereRegex : list item :=
  [Lit "SELECT * FROM "; Group Js.is_word; Lit " WHERE id = "; Group Js.is_digit].

(** [/^INSERT INTO (\w+) \(([^)]+)\) VALUES \(([^)]+)\)$/i] *)
Definition insertRegex : list item :=
  [Lit "INSERT INTO "; Group Js.is_word; Lit " ("; Group Js.not_close_paren;
   Lit ") VALUES ("; Group Js.not_close_paren; Lit ")"].

End Regex.

(** ** [sqlParser] *)

(** The object [sqlParser] returns.  [SELECT table None] is
    [{command: "SELECT", table, columns: "*", where: null}],
    [SELECT table (Some id)] has [where: {id}], and [INSERT table data] is
    [{command: "INSERT", table, data}].  The bag [data] is a plain object
    that starts empty: its own properties are a finite map, and the two
    keys at which the handler reads it, [name] and [description], are not
    properties of [Object.prototype]. *)
Inductive parsedCommand :=
  | SELECT (table : string) (where_ : option Z)
  | INSERT (table : string) (data : gmap string string).

(** A computation that returns or throws [new Error(message)]. *)
Inductive result (A : Type) :=
  | Ok (a : A)
  | Throw (message : string).
Arguments Ok {A} a.
Arguments Throw {A} message.

(** [data[col] = value] on a plain object, for a string [value]: the key
    [__proto__] is the accessor of [Object.prototype], whose setter
    ignores a value that is not an object, so nothing is stored; every
    other key becomes or stays an own property. *)
Definition set_property (data : gmap string string) (col value : string)
    : gmap string string :=
  if decide (col = "__proto__") then data else <[col := value]> data.

(** [columns.forEach((col, index) => { data[col] = values[index]; })] for
    lists of equal length: a later column of the same name wins. *)
Definition assign_columns (columns values : list string) : gmap string string :=
  foldl (λ data cv, set_property data cv.1 cv.2) ∅ (zip columns values).

Definition sqlParser (sql : string) : result parsedCommand :=
  let sql := Js.trim sql in
  match Regex.exec Regex.selectAllRegex sql with
  | Some selectAllMatch =>
      let table := selectAllMatch !!! 1%nat in
      Ok (SELECT table None)
  | None =>
  match Regex.exec Regex.selectWhereRegex sql with
  | Some selectWhereMatch =>
      let table := selectWhereMatch !!! 1%nat in
      let id := Js.parseInt (selectWhereMatch !!! 2%nat) in
      Ok (SELECT table (Some id))
  | None =>
  match Regex.exec Regex.insertRegex sql with
  | Some insertMatch =>
      let table := insertMatch !!! 1%nat in
      let columns := Js.trim <$> Js.split "," (insertMatch !!! 2%nat) in
      let values := Js.trim <$> Js.split "," (insertMatch !!! 3%nat) in
      if decide (length columns ≠ length values)
      then Throw "Column and value count mismatch in INSERT statement"
      else Ok (INSERT table (assign_columns columns values))
  | None => Throw "Unsupported SQL command format"
  end end end.

(** ** Records, table files and the file system *)

(** [type Data = { id: number; name: string; description: string }].  The
    two text attributes are [undefined] when the INSERT statement did not
    name them. *)
Record Data := {
  id : Z;
  name : option string;
  description : option string;
}.

Global Instance Data_eq_dec : EqDecision Data.
Proof. solve_decision. Defined.

(** The text of a table file, up to JSON decoding: either the text that
    [JSON.stringify(records, null, 2)] prints, which [JSON.parse] decodes
    to the same records, or a text on which [JSON.parse] throws a
    [SyntaxError].  Texts that decode to JSON of another shape than
    [Data[]] are outside the declared type of [loadData] and are not
    modelled. *)
Inductive content :=
  | Encoded (records : list Data)
  | Malformed (text : string).

(** The directory of table files.  [read_denied] and [write_denied] hold
    the paths on which [fs.readFile] and [fs.writeFile] are rejected for
    another reason than a missing file (permissions, an I/O error, a
    missing directory).  A read that is not rejected returns the file as
    it is at that moment. *)
Record Disk := {
  files : gmap string content;
  read_denied : gset string;
  write_denied : gset string;
}.

Global Instance result_ret : MRet result := λ A a, Ok a.
Global Instance result_bind : MBind result := λ A B f m,
  match m with
  | Ok a => f a
  | Throw message => Throw message
  end.

Module JSON.

Definition stringify (data : list Data) : content := Encoded data.

Definition parse (text : content) : result (list Data) :=
  match text with
  | Encoded records => Ok records
  | Malformed _ => Throw "SyntaxError: Unexpected token in JSON"
  end.

End JSON.

(** ** The text of a table file

    [JSON.stringify(data, null, 2)] and [JSON.parse] on texts, for the
    values a table file holds.  [Encoded records] above stands for the
    text that [JSONText.stringify records] prints. *)

(** JSON values.  A number keeps the text of its literal. *)
#[warnings="-register-all"]
Inductive json :=
  | JNull
  | JBool (b : bool)
  | JNumber (literal : string)
  | JString (s : string)
  | JArray (items : list json)
  | JObject (members : list (string * json)).

Module JSONText.

Definition dquote : ascii := "034".
Definition backslash : ascii := "092".
Definition newline : ascii := "010".

Definition hex_digit (n : N) : ascii :=
  match String.get (N.to_nat n) "0123456789abcdef" with
  | Some c => c
  | None => "0"
  end%char.

(** [QuoteJSONString], for one code unit. *)
Definition escape (c : ascii) : string :=
  if Ascii.eqb c dquote then String backslash (String dquote "")
  else if Ascii.eqb c backslash then String backslash (String backslash "")
  else if Ascii.eqb c "008" then String backslash "b"
  else if Ascii.eqb c "012" then String backslash "f"
  else if Ascii.eqb c "010" then String backslash "n"
  else if Ascii.eqb c "013" then String backslash "r"
  else if Ascii.eqb c "009" then String backslash "t"
  else if (N_of_ascii c <? 32)%N
       then String backslash
              (String "u" (String "0" (String "0"
                 (String (hex_digit (N_of_ascii c / 16))
                    (String (hex_digit (N_of_ascii c mod 16)) "")))))
  else String c "".

Fixpoint escape_all (s : string) : string :=
  match s with
  | EmptyString => EmptyString
  | String c s' => escape c +:+ escape_all s'
  end.

Definition quote (s : string) : string :=
  String dquote (escape_all s +:+ String dquote "").

(** [Number::toString] on an integer. *)
Definition number (z : Z) : string := DecimalString.NilZero.string_of_int (Z.to_int z).

Definition text_member (key : string) (value : option string) : list (string * string) :=
  match value with
  | Some s => [(key, quote s)]
  | None => []
  end.

(** The members [JSON.stringify] prints for a record, with the text of
    their values: [undefined] is left out. *)
Definition members_of (r : Data) : list (string * string) :=
  [("id", number (id r))] ++ text_member "name" (name r)
    ++ text_member "description" (description r).

(** The texts, each on a line of its own behind the indentation, with a
    comma between each two. *)
Fixpoint lines (indent : string) (texts : list string) : string :=
  match texts with
  | [] => EmptyString
  | [text] => String newline (indent +:+ text)
  | text :: texts' => String newline (indent +:+ text +:+ String "," (lines indent texts'))
  end.

Definition member_text (kv : string * string) : string :=
  quote kv.1 +:+ String ":" (String " " kv.2).

Definition object (r : Data) : string :=
  String "{" (lines "    " (member_text <$> members_of r) +:+ String newline "  }").

(** [JSON.stringify(data, null, 2)]. *)
Definition stringify (data : list Data) : string :=
  match data with
  | [] => "[]"
  | _ => String "[" (lines "  " (object <$> data) +:+ String newline "]")
  end.

(** ** [JSON.parse] *)

Definition is_ws (c : ascii) : bool :=
  Ascii.eqb c " " || Ascii.eqb c "009" || Ascii.eqb c "010" || Ascii.eqb c "013".

Fixpoint skip_ws (s : string) : string :=
  match s with
  | String c s' => if is_ws c then skip_ws s' else s
  | EmptyString => EmptyString
  end.

Definition hex_value (c : ascii) : option N :=
  let n := N_of_ascii c in
  if (48 <=? n)%N && (n <=? 57)%N then Some (n - 48)%N
  else if (97 <=? n)%N && (n <=? 102)%N then Some (n - 87)%N
  else if (65 <=? n)%N && (n <=? 70)%N then Some (n - 55)%N
  else None.

(** The code unit of [\uXXXX], when it is below 256. *)
Definition code_unit (h1 h2 h3 h4 : ascii) : option ascii :=
  n1 ← hex_value h1; n2 ← hex_value h2; n3 ← hex_value h3; n4 ← hex_value h4;
  if ((n1 =? 0) && (n2 =? 0))%N then Some (ascii_of_N (16 * n3 + n4)) else None.

Definition unescape (e : ascii) : option ascii :=
  if Ascii.eqb e dquote then Some dquote
  else if Ascii.eqb e backslash then Some backslash
  else if Ascii.eqb e "/" then Some "/"%char
  else if Ascii.eqb e "b" then Some "008"%char
  else if Ascii.eqb e "f" then Some "012"%char
  else if Ascii.eqb e "n" then Some "010"%char
  else if Ascii.eqb e "r" then Some "013"%char
  else if Ascii.eqb e "t" then Some "009"%char
  else None.

Definition push (c : ascii) (r : option (string * string)) : option (string * string) :=
  match r with
  | Some (s, rest) => Some (String c s, rest)
  | None => None
  end.

(** The characters of a string literal after its opening quote, and the
    text after its closing quote. *)
Fixpoint chars (s : string) : option (string * string) :=
  match s with
  | EmptyString => None
  | String c s' =>
      if Ascii.eqb c dquote then Some (EmptyString, s')
      else if Ascii.eqb c backslash then
        match s' with
        | String e s'' =>
            if Ascii.eqb e "u" then
              match s'' with
              | String h1 (String h2 (String h3 (String h4 s3))) =>
                  match code_unit h1 h2 h3 h4 with
                  | Some u => push u (chars s3)
                  | None => None
                  end
              | _ => None
              end
            else match unescape e with
                 | Some u => push u (chars s'')
                 | None => None
                 end
        | EmptyString => None
        end
      else if (N_of_ascii c <? 32)%N then None
      else push c (chars s')
  end.

Definition is_digit (c : ascii) : bool :=
  (48 <=? N_of_ascii c)%N && (N_of_ascii c <=? 57)%N.

Definition is_number_char (c : ascii) : bool :=
  is_digit c || Ascii.eqb c "-" || Ascii.eqb c "+" || Ascii.eqb c "."
  || Ascii.eqb c "e" || Ascii.eqb c "E".

(** The longest prefix in the class, and the rest. *)
Fixpoint span (cls : ascii → bool) (s : string) : string * string :=
  match s with
  | String c s' =>
      if cls c then let '(run, rest) := span cls s' in (String c run, rest)
      else (EmptyString, s)
  | EmptyString => (EmptyString, EmptyString)
  end.

Definition all_digits (s : string) : bool :=
  match span is_digit s with
  | (String _ _, EmptyString) => true
  | _ => false
  end.

(** [e] or [E], an optional sign, digits; or nothing. *)
Definition is_exponent (s : string) : bool :=
  match s with
  | EmptyString => true
  | String c s' =>
      (Ascii.eqb c "e" || Ascii.eqb c "E") &&
      match s' with
      | String sign s'' =>
          if Ascii.eqb sign "-" || Ascii.eqb sign "+" then all_digits s''
          else all_digits s'
      | EmptyString => false
      end
  end.

(** [.] and digits, or nothing; then the exponent. *)
Definition is_fraction (s : string) : bool :=
  match s with
  | String "." s' =>
      match span is_digit s' with
      | (String _ _, rest) => is_exponent rest
      | _ => false
      end
  | _ => is_exponent s
  end.

(** The grammar of a JSON number: an optional minus, [0] or a digit run
    that does not start with [0], an optional fraction, an optional
    exponent. *)
Definition is_number (s : string) : bool :=
  let s := match s with String "-" s' => s' | _ => s end in
  match s with
  | String "0" rest => is_fraction rest
  | String c _ =>
      is_digit c &&
      let '(_, rest) := span is_digit s in is_fraction rest
  | EmptyString => false
  end.

Definition literal (word : string) (v : json) (s : string) : option (json * string) :=
  if String.prefix word s
  then Some (v, String.substring (String.length word) (String.length s - String.length word) s)
  else None.

Fixpoint value (fuel : nat) (s : string) : option (json * string) :=
  match fuel with
  | O => None
  | S fuel =>
      match skip_ws s with
      | EmptyString => None
      | String c s' =>
          if Ascii.eqb c dquote then
            match chars s' with
            | Some (text, rest) => Some (JString text, rest)
            | None => None
            end
          else if Ascii.eqb c "[" then
            match skip_ws s' with
            | String "]" rest => Some (JArray [], rest)
            | _ => elements fuel s' []
            end
          else if Ascii.eqb c "{" then
            match skip_ws s' with
            | String "}" rest => Some (JObject [], rest)
            | _ => members fuel s' []
            end
          else if Ascii.eqb c "t" then literal "true" (JBool true) (String c s')
          else if Ascii.eqb c "f" then literal "false" (JBool false) (String c s')
          else if Ascii.eqb c "n" then literal "null" JNull (String c s')
          else
            let '(run, rest) := span is_number_char (String c s') in
            if is_number run then Some (JNumber run, rest) else None
      end
  end
with elements (fuel : nat) (s : string) (acc : list json) : option (json * string) :=
  match fuel with
  | O => None
  | S fuel =>
      match value fuel s with
      | Some (v, rest) =>
          match skip_ws rest with
          | String "," rest' => elements fuel rest' (acc ++ [v])
          | String "]" rest' => Some (JArray (acc ++ [v]), rest')
          | _ => None
          end
      | None => None
      end
  end
with members (fuel : nat) (s : string) (acc : list (string * json)) : option (json * string) :=
  match fuel with
  | O => None
  | S fuel =>
      match skip_ws s with
      | String c s' =>
          if Ascii.eqb c dquote then
            match chars s' with
            | Some (key, rest) =>
                match skip_ws rest with
                | String ":" rest' =>
                    match value fuel rest' with
                    | Some (v, rest'') =>
                        match skip_ws rest'' with
                        | String "," r => members fuel r (acc ++ [(key, v)])
                        | String "}" r => Some (JObject (acc ++ [(key, v)]), r)
                        | _ => None
                        end
                    | None => None
                    end
                | _ => None
                end
            | None => None
            end
          else None
      | EmptyString => None
      end
  end.

(** [JSON.parse]: one value, with white space around it and nothing
    else.  [None] is a [SyntaxError], or a string with a code unit above
    255. *)
Definition parse (text : string) : option json :=
  match value (2 * String.length text + 2) text with
  | Some (v, rest) => if decide (skip_ws rest = EmptyString) then Some v else None
  | None => None
  end.

(** The property of an object: of two members with the same key the
    later one counts. *)
Fixpoint member (key : string) (ms : list (string * json)) : option json :=
  match ms with
  | [] => None
  | (k, v) :: ms' =>
      match member key ms' with
      | Some v' => Some v'
      | None => if decide (k = key) then Some v else None
      end
  end.

(** The integer a number literal denotes, when the literal is one of a
    safe integer. *)
Definition integer_of (literal : string) : option Z :=
  match DecimalString.NilZero.int_of_string literal with
  | Some d =>
      let z := Z.of_int d in
      if decide (- (2 ^ 53 - 1) ≤ z ≤ 2 ^ 53 - 1) then Some z else None
  | None => None
  end.

(** A text attribute: absent, or a string. *)
Definition text_of (key : string) (ms : list (string * json)) : option (option string) :=
  match member key ms with
  | None => Some None
  | Some (JString s) => Some (Some s)
  | Some _ => None
  end.

(** The value read as a [Data]; [None] when it is not an object with a
    safe integer [id] and texts or nothing as [name] and [description]. *)
Definition record_of (v : json) : option Data :=
  match v with
  | JObject ms =>
      match member "id" ms with
      | Some (JNumber literal) =>
          z ← integer_of literal;
          n ← text_of "name" ms;
          d ← text_of "description" ms;
          Some {| id := z; name := n; description := d |}
      | _ => None
      end
  | _ => None
  end.

(** The value read as a [Data[]]. *)
Definition records_of (v : json) : option (list Data) :=
  match v with
  | JArray items => mapM record_of items
  | _ => None
  end.

Definition decode (text : string) : option (list Data) :=
  parse text ≫= records_of.

End JSONText.

Module fs.

Definition readFile (d : Disk) (path : string) : result content :=
  if decide (path ∈ read_denied d) then Throw "EACCES: permission denied"
  else match files d !! path with
       | Some text => Ok text
       | None => Throw "ENOENT: no such file or directory"
       end.

Definition writeFile (d : Disk) (path : string) (text : content) : result Disk :=
  if decide (path ∈ write_denied d) then Throw "EACCES: permission denied"
  else Ok {| files := <[path := text]> (files d);
             read_denied := read_denied d;
             write_denied := write_denied d |}.

(** [fs.writeFile] is not one operation: it opens the file with the flag
    [w], which creates it or cuts it to length zero, and then writes the
    text into it; the handlers of other connections run between the two.
    [open_w] is the first step and [write] the second, on the file as
    [open_w] left it.  The empty text is not valid JSON. *)
Definition open_w (d : Disk) (path : string) : result Disk :=
  if decide (path ∈ write_denied d) then Throw "EACCES: permission denied"
  else Ok {| files := <[path := Malformed ""]> (files d);
             read_denied := read_denied d;
             write_denied := write_denied d |}.

Definition write (d : Disk) (path : string) (text : content) : Disk :=
  {| files := <[path := text]> (files d);
     read_denied := read_denied d;
     write_denied := write_denied d |}.

End fs.

(** [path.join(__dirname, '..', `data/${table}.txt`)], relative to the
    parent of [__dirname].  The table is a run of word characters, as
    [sqlParser] captures it, so [path.join] has nothing to normalise. *)
Definition dataFilePath (table : string) : string :=
  "data/" +:+ table +:+ ".txt".

(** [loadData]: the whole body is inside [try]; the [catch] logs and
    returns the empty array. *)
Definition loadData (d : Disk) (table : string) : list Data :=
  match fs.readFile d (dataFilePath table) ≫= JSON.parse with
  | Ok data => data
  | Throw _ => []
  end.

(** [saveData]: the [catch] logs and returns. *)
Definition saveData (d : Disk) (data : list Data) (table : string) : Disk :=
  match fs.writeFile d (dataFilePath table) (JSON.stringify data) with
  | Ok d' => d'
  | Throw _ => d
  end.

(** ** The data handler *)

(** The JSON value written to the socket: an array of records, the object
    [{ success: true, newData }], or the object [{ error }]. *)
Inductive response :=
  | Rows (data : list Data)
  | Inserted (newData : Data)
  | Error (error : string).

(** [data.length > 0 ? Math.max(...data.map(s => s.id)) + 1 : 1], on a
    table within the limits of the runtime ([within_limits] below): the
    spread passes one argument for each record, which the runtime accepts
    up to a bound and otherwise answers with a [RangeError], and the
    numbers are those of the integers as long as they are safe integers.
    Properties of [newId] that depend on either are stated within these
    limits. *)
Definition newId (data : list Data) : Z :=
  match id <$> data with
  | [] => 1
  | x :: xs => foldl Z.max x xs + 1
  end.

(** [{ id: newId, name: parsedCommand.data.name,
       description: parsedCommand.data.description }] *)
Definition newData (data : list Data) (bag : gmap string string) : Data :=
  {| id := newId data; name := bag !! "name"; description := bag !! "description" |}.

(** The response of the SELECT branch once the table is loaded. *)
Definition select_response (where_ : option Z) (data : list Data) : response :=
  match where_ with
  | Some k =>
      match List.find (λ s, bool_decide (id s = k)) data with
      | Some datum => Rows [datum]
      | None => Error "Data not found"
      end
  | None => Rows data
  end.

(** The body of the [try] after parsing, with nothing else running between
    its steps.  The object that [sqlParser] returns has either the command
    [SELECT] or the command [INSERT] and a bag, so the last [else], which
    answers [Unsupported command], is never taken. *)
Definition execute (d : Disk) (parsedCommand : parsedCommand) : Disk * response :=
  match parsedCommand with
  | SELECT table where_ =>
      let data := loadData d table in
      (d, select_response where_ data)
  | INSERT table bag =>
      let data := loadData d table in
      let newData := newData data bag in
      let data := data ++ [newData] in
      let d := saveData d data table in
      (d, Inserted newData)
  end.

(** [socket.on('data', async (data) => ...)]: any error thrown by
    [sqlParser] is answered with [Invalid SQL command]. *)
Definition on_data (d : Disk) (data : string) : Disk * response :=
  let command := Js.trim data in
  match sqlParser command with
  | Ok parsedCommand => execute d parsedCommand
  | Throw _ => (d, Error "Invalid SQL command")
  end.

(** Commands served one after another, each to completion. *)
Fixpoint execute_all (d : Disk) (commands : list parsedCommand) : Disk * list response :=
  match commands with
  | [] => (d, [])
  | c :: commands =>
      let '(d, r) := execute d c in
      let '(d, rs) := execute_all d commands in
      (d, r :: rs)
  end.

Fixpoint serve (d : Disk) (inputs : list string) : Disk * list response :=
  match inputs with
  | [] => (d, [])
  | data :: inputs =>
      let '(d, r) := on_data d data in
      let '(d, rs) := serve d inputs in
      (d, r :: rs)
  end.

(** ** Handlers of several connections

    The handler is an [async] function: it runs until an [await], and the
    handlers of other connections run before it is resumed.  It awaits
    twice, on [loadData] and on [saveData].  A [task] is a handler between
    two such points; the file operation of an awaited call takes effect
    when the task is resumed.  The schedules of this model resume whole
    tasks: they do not run a handler between the two steps of a write
    ([fs.open_w] and [fs.write]). *)
Inductive task :=
  | Received (data : string)
  | AwaitLoad (parsedCommand : parsedCommand)
  | AwaitSave (table : string) (data : list Data) (newData : Data)
  | Finished (r : response).

Definition resume (d : Disk) (t : task) : Disk * task :=
  match t with
  | Received data =>
      match sqlParser (Js.trim data) with
      | Ok parsedCommand => (d, AwaitLoad parsedCommand)
      | Throw _ => (d, Finished (Error "Invalid SQL command"))
      end
  | AwaitLoad (SELECT table where_) =>
      (d, Finished (select_response where_ (loadData d table)))
  | AwaitLoad (INSERT table bag) =>
      let data := loadData d table in
      let newData := newData data bag in
      (d, AwaitSave table (data ++ [newData]) newData)
  | AwaitSave table data newData =>
      (saveData d data table, Finished (Inserted newData))
  | Finished r => (d, Finished r)
  end.

Record server := {
  disk : Disk;
  tasks : list task;
}.

(** The event loop resumes the task of connection [i]. *)
Definition step (i : nat) (s : server) : server :=
  match tasks s !! i with
  | Some t =>
      let '(d, t') := resume (disk s) t in
      {| disk := d; tasks := <[i := t']> (tasks s) |}
  | None => s
  end.

Definition run (schedule : list nat) (s : server) : server :=
  foldl (λ s i, step i s) s schedule.

(** The schedule that resumes connection 0 until it has answered, then
    connection 1, and so on; a handler is resumed at most three times. *)
Definition serial (n : nat) : list nat :=
  i ← seq 0 n; [i; i; i].

Definition responses (s : server) : list (option response) :=
  (λ t, match t with Finished r => Some r | _ => None end) <$> tasks s.

(** * Specification

    The notions in which the properties are stated. *)

(** ** Table files *)

(** The file of the table can be read and written. *)
Definition accessible (d : Disk) (table : string) : Prop :=
  (dataFilePath table ∉ read_denied d) ∧ (dataFilePath table ∉ write_denied d).

(** ** Ids *)

(** What the specification asks of the id of a new record: one more than
    the largest id present, or 1 for an empty table. *)
Definition next_id (data : list Data) (n : Z) : Prop :=
  (data = [] ∧ n = 1) ∨
  (∃ r, r ∈ data ∧ n = id r + 1 ∧ ∀ r', r' ∈ data → id r' ≤ id r).

(** The command is an INSERT on the table. *)
Definition is_insert_on (table : string) (c : parsedCommand) : bool :=
  match c with
  | INSERT t _ => bool_decide (t = table)
  | SELECT _ _ => false
  end.

(** How many of the commands are INSERTs on the table. *)
Definition inserts_on (table : string) (commands : list parsedCommand) : nat :=
  length (List.filter (is_insert_on table) commands).

(** The ids the server reported for the INSERTs on the table, in the order
    of the commands. *)
Fixpoint assigned_ids (table : string) (commands : list parsedCommand)
    (rs : list response) : list Z :=
  match commands, rs with
  | c :: commands, r :: rs =>
      match r with
      | Inserted x =>
          if is_insert_on table c then id x :: assigned_ids table commands rs
          else assigned_ids table commands rs
      | _ => assigned_ids table commands rs
      end
  | _, _ => []
  end.

(** ** Disks of the examples *)

Definition empty_disk : Disk :=
  {| files := ∅; read_denied := ∅; write_denied := ∅ |}.

(** A disk on which the file of [spells] holds one record and cannot be
    written. *)
Definition read_only_disk : Disk :=
  {| files := {[dataFilePath "spells" :=
                  Encoded [{| id := 1; name := Some "Fireball"; description := None |}]]};
     read_denied := ∅;
     write_denied := {[dataFilePath "spells"]} |}.

(** A disk on which the file of [spells] is not valid JSON, and the file of
    [potions] holds a record but cannot be read. *)
Definition corrupt_disk : Disk :=
  {| files := {[dataFilePath "spells" := Malformed "[{ id: 1, ";
                dataFilePath "potions" :=
                  Encoded [{| id := 1; name := Some "Elixir"; description := None |}]]};
     read_denied := {[dataFilePath "potions"]};
     write_denied := ∅ |}.

(** ** The grammar of the statements *)

(** Every code unit of the string is in the class. *)
Fixpoint str_all (cls : ascii → bool) (s : string) : bool :=
  match s with
  | EmptyString => true
  | String c s' => cls c && str_all cls s'
  end.

(** The string with its letters in upper case. *)
Fixpoint fold_case (s : string) : string :=
  match s with
  | EmptyString => EmptyString
  | String c s' => String (Js.canonicalize c) (fold_case s')
  end.

(** [kw] is the keyword text [pat], in any letter case. *)
Definition keyword (pat kw : string) : Prop := fold_case kw = fold_case pat.

(** The first code unit of the string, if any, is outside the class. *)
Definition starts_outside (cls : ascii → bool) (s : string) : Prop :=
  match s with
  | EmptyString => True
  | String c _ => cls c = false
  end.

(** The last code unit of the string, if any, is outside the class. *)
Fixpoint ends_outside (cls : ascii → bool) (s : string) : Prop :=
  match s with
  | EmptyString => True
  | String c EmptyString => cls c = false
  | String _ s' => ends_outside cls s'
  end.

(** The strings a pattern denotes, with the text of each group: a literal
    stands for its text in any letter case, a group for any non-empty run
    of its class. *)
Inductive matches : list Regex.item → string → list string → Prop :=
  | matches_end : matches [] "" []
  | matches_lit pat re kw s groups :
      keyword pat kw → matches re s groups →
      matches (Regex.Lit pat :: re) (kw +:+ s) groups
  | matches_group cls re run s groups :
      run ≠ "" → str_all cls run = true → matches re s groups →
      matches (Regex.Group cls :: re) (run +:+ s) (run :: groups).

(** No literal after a group can begin inside the class of the group. *)
Fixpoint guarded (re : list Regex.item) : Prop :=
  match re with
  | [] => True
  | Regex.Lit _ :: re' => guarded re'
  | Regex.Group cls :: re' =>
      match re' with
      | [] => True
      | Regex.Lit (String p _) :: _ =>
          ∀ c, Js.canonicalize c = Js.canonicalize p → cls c = false
      | _ => False
      end ∧ guarded re'
  end.

(** ** The three statement shapes *)

(** A bare word token: letters, digits and underscores. *)
Definition word (t : string) : Prop :=
  t ≠ "" ∧ str_all Js.is_word t = true.

(** A run of decimal digits. *)
Definition integer (n : string) : Prop :=
  n ≠ "" ∧ str_all Js.is_digit n = true.

(** The inside of a parenthesised list: anything but a closing
    parenthesis. *)
Definition item_list (l : string) : Prop :=
  l ≠ "" ∧ str_all Js.not_close_paren l = true.

(** [SELECT * FROM <table>] *)
Definition select_all_shape (s table : string) : Prop :=
  ∃ kw, s = kw +:+ table ∧ keyword "SELECT * FROM " kw ∧ word table.

(** [SELECT * FROM <table> WHERE id = <integer>] *)
Definition select_by_id_shape (s table n : string) : Prop :=
  ∃ kw1 kw2,
    s = kw1 +:+ table +:+ kw2 +:+ n ∧
    keyword "SELECT * FROM " kw1 ∧ word table ∧
    keyword " WHERE id = " kw2 ∧ integer n.

(** [INSERT INTO <table> (<col1>, <col2>, ...) VALUES (<val1>, <val2>, ...)] *)
Definition insert_shape (s table cols vals : string) : Prop :=
  ∃ kw1 kw2,
    s = kw1 +:+ table +:+ " (" +:+ cols +:+ kw2 +:+ vals +:+ ")" ∧
    keyword "INSERT INTO " kw1 ∧ word table ∧ item_list cols ∧
    keyword ") VALUES (" kw2 ∧ item_list vals.

(** A list between parentheses, split on commas, each item trimmed. *)
Definition items (l : string) : list string := Js.trim <$> Js.split "," l.

(** The parser as a relation on the trimmed line, with the id and the bag
    still computed as the code computes them; [grammar] below states
    them without the code. *)
Inductive parses (s : string) : result parsedCommand → Prop :=
  | parses_select_all table :
      select_all_shape s table →
      parses s (Ok (SELECT table None))
  | parses_select_by_id table n :
      select_by_id_shape s table n →
      parses s (Ok (SELECT table (Some (Js.parseInt n))))
  | parses_insert table cols vals :
      insert_shape s table cols vals →
      length (items cols) = length (items vals) →
      parses s (Ok (INSERT table (assign_columns (items cols) (items vals))))
  | parses_mismatch table cols vals :
      insert_shape s table cols vals →
      length (items cols) ≠ length (items vals) →
      parses s (Throw "Column and value count mismatch in INSERT statement")
  | parses_unsupported :
      (∀ table, ¬ select_all_shape s table) →
      (∀ table n, ¬ select_by_id_shape s table n) →
      (∀ table cols vals, ¬ insert_shape s table cols vals) →
      parses s (Throw "Unsupported SQL command format").

(** [core] is [s] without its leading and trailing white space. *)
Definition trimmed (s core : string) : Prop :=
  ∃ l r,
    s = l +:+ core +:+ r ∧
    str_all Js.is_white_space l = true ∧ str_all Js.is_white_space r = true ∧
    starts_outside Js.is_white_space core ∧ ends_outside Js.is_white_space core.

(** ** Further notions *)

(** The table a command is about. *)
Definition table_of (c : parsedCommand) : string :=
  match c with
  | SELECT table _ => table
  | INSERT table _ => table
  end.

(** How often the code unit occurs in the string. *)
Fixpoint count_char (c : ascii) (s : string) : nat :=
  match s with
  | EmptyString => 0
  | String c' s' => (if decide (c' = c) then 1 else 0) + count_char c s'
  end.

(** How often the schedule resumes connection [i]. *)
Fixpoint times_resumed (i : nat) (schedule : list nat) : nat :=
  match schedule with
  | [] => 0
  | j :: schedule => (if decide (j = i) then 1 else 0) + times_resumed i schedule
  end.

(** How many more times a handler has to be resumed, at most, before it
    has answered. *)
Definition remaining (t : task) : nat :=
  match t with
  | Received _ => 3
  | AwaitLoad _ => 2
  | AwaitSave _ _ _ => 1
  | Finished _ => 0
  end.

(** A handler of the input [data] at a point from which it will not
    write: it has not parsed yet, or it is a SELECT that waits for its
    load, or it has given the answer that the input gets when it is served
    alone on the disk [d]. *)
Definition reading (d : Disk) (data : string) (t : task) : Prop :=
  match t with
  | Received data' => data' = data
  | AwaitLoad (SELECT table where_) => sqlParser data = Ok (SELECT table where_)
  | AwaitLoad (INSERT _ _) => False
  | AwaitSave _ _ _ => False
  | Finished r => r = (on_data d data).2
  end.

(** ** The grammar, stated without the code *)

(** The value of a decimal digit. *)
Definition digit (c : ascii) : Z :=
  match c with
  | "0" => 0 | "1" => 1 | "2" => 2 | "3" => 3 | "4" => 4
  | "5" => 5 | "6" => 6 | "7" => 7 | "8" => 8 | "9" => 9
  | _ => 0
  end%char.

(** The number a run of decimal digits denotes: each digit counts for its
    value times the power of ten of its place. *)
Fixpoint decimal (n : string) : Z :=
  match n with
  | EmptyString => 0
  | String c n' => digit c * 10 ^ Z.of_nat (String.length n') + decimal n'
  end.

(** A digit run short enough for its number to be a safe integer, so that
    the number [parseInt] returns is the number the digits denote. *)
Definition short (n : string) : Prop := (String.length n ≤ 15)%nat.

(** [l] is the [pieces] with a comma between each two, and no piece holds
    a comma. *)
Definition comma_separated (l : string) (pieces : list string) : Prop :=
  pieces ≠ [] ∧ l = String.concat "," pieces ∧
  Forall (λ piece, count_char "," piece = 0%nat) pieces.

(** The items of a parenthesised list: its pieces between the commas, each
    without its outer white space. *)
Definition list_items (l : string) (its : list string) : Prop :=
  ∃ pieces, comma_separated l pieces ∧ Forall2 trimmed pieces its.

(** The field mapping of an INSERT: each column is paired with the value at
    its place, a column named twice keeps its last value, and [__proto__]
    names no field. *)
Definition fields_of (columns values : list string) : gmap string string :=
  delete "__proto__" (list_to_map (reverse (zip columns values))).

(** What the specification asks of the parser on a trimmed line.  The two
    failures carry the messages of the errors that the source throws. *)
Inductive grammar (s : string) : result parsedCommand → Prop :=
  | grammar_select_all table :
      select_all_shape s table →
      grammar s (Ok (SELECT table None))
  | grammar_select_by_id table n :
      select_by_id_shape s table n →
      grammar s (Ok (SELECT table (Some (decimal n))))
  | grammar_insert table cols vals columns values :
      insert_shape s table cols vals →
      list_items cols columns → list_items vals values →
      length columns = length values →
      grammar s (Ok (INSERT table (fields_of columns values)))
  | grammar_mismatch table cols vals columns values :
      insert_shape s table cols vals →
      list_items cols columns → list_items vals values →
      length columns ≠ length values →
      grammar s (Throw "Column and value count mismatch in INSERT statement")
  | grammar_unsupported :
      (∀ table, ¬ select_all_shape s table) →
      (∀ table n, ¬ select_by_id_shape s table n) →
      (∀ table cols vals, ¬ insert_shape s table cols vals) →
      grammar s (Throw "Unsupported SQL command format").

(** ** The text codec *)

(** The text is read back as the value, by a parser with fuel [n] or
    more, before a rest that cannot continue a number. *)
Definition printed (n : nat) (text : string) (v : json) : Prop :=
  ∀ fuel rest, (n ≤ fuel)%nat → starts_outside JSONText.is_number_char rest →
    JSONText.value fuel (text +:+ rest) = Some (v, rest).


Definition text_json (key : string) (value : option string) : list (string * json) :=
  match value with
  | Some s => [(key, JString s)]
  | None => []
  end.

(** The JSON value of a record. *)
Definition json_of (r : Data) : json :=
  JObject ([("id", JNumber (JSONText.number (id r)))] ++ text_json "name" (name r)
             ++ text_json "description" (description r)).

(** The text of a table file. *)
Definition file_text (c : content) : string :=
  match c with
  | Encoded records => JSONText.stringify records
  | Malformed text => text
  end.

(** ** The limits of the runtime

    The handler computes ids in double precision and passes the ids of a
    whole table to [Math.max] as arguments.  The properties that depend on
    the id of a new record are stated for tables on which both are exact:
    ids that are safe integers, and no more records than the runtime
    accepts as arguments of one call.  That number depends on the size of
    the stack; [max_arguments] is a number that Node accepts on its default
    stack. *)

(** [Number.MAX_SAFE_INTEGER] *)
Definition max_safe_integer : Z := 2 ^ 53 - 1.

Definition max_arguments : Z := 65535.

Definition within_limits (data : list Data) : Prop :=
  Z.of_nat (length data) ≤ max_arguments ∧
  ∀ x, x ∈ data → - max_safe_integer ≤ id x ≤ max_safe_integer.

(** The table has room for [n] further records: with them it is still
    within the limits, ids included. *)
Definition room_for (n : nat) (data : list Data) : Prop :=
  Z.of_nat (length data + n) ≤ max_arguments ∧
  ∀ x, x ∈ data → - max_safe_integer ≤ id x ≤ max_safe_integer - Z.of_nat n.

(** A disk on which no file exists and the file of [spells] cannot be
    created. *)
Definition closed_disk : Disk :=
  {| files := ∅; read_denied := ∅; write_denied := {[dataFilePath "spells"]} |}.

(** * Properties *)

(** ** Strings *)

Section strings.

Lemma app_empty_r (s : string) : s +:+ "" = s.
Proof. induction s as [|c s IH]; [done|]. unfold String.app in *. simpl. by rewrite IH. Qed.

Lemma app_assoc_string (s1 s2 s3 : string) : (s1 +:+ s2) +:+ s3 = s1 +:+ s2 +:+ s3.
Proof.
  induction s1 as [|c s1 IH]; [done|].
  unfold String.app in *. simpl. by rewrite IH.
Qed.

Lemma app_cons (c : ascii) (s1 s2 : string) : String c s1 +:+ s2 = String c (s1 +:+ s2).
Proof. done. Qed.

Lemma length_append (s1 s2 : string) :
  String.length (s1 +:+ s2) = (String.length s1 + String.length s2)%nat.
Proof. induction s1 as [|c s1 IH]; [done|]. rewrite app_cons. cbn. by rewrite IH. Qed.

Lemma app_nil_l_string (s : string) : "" +:+ s = s.
Proof. done. Qed.

Lemma list_of_app (s1 s2 : string) :
  list_ascii_of_string (s1 +:+ s2) = list_ascii_of_string s1 ++ list_ascii_of_string s2.
Proof.
  induction s1 as [|c s1 IH]; [done|].
  rewrite app_cons. simpl. by rewrite IH.
Qed.

Lemma list_of_string_inj (s1 s2 : string) :
  list_ascii_of_string s1 = list_ascii_of_string s2 → s1 = s2.
Proof.
  intros H. rewrite <- (string_of_list_ascii_of_string s1), H.
  apply string_of_list_ascii_of_string.
Qed.

Lemma app_inj_r (s1 s2 r : string) : s1 +:+ r = s2 +:+ r → s1 = s2.
Proof.
  intros H. apply list_of_string_inj.
  apply (f_equal list_ascii_of_string) in H. rewrite !list_of_app in H.
  by apply app_inv_tail in H.
Qed.

End strings.

(** ** The table files *)

Section storage.

Implicit Types (d : Disk) (table : string) (data : list Data).

Lemma dataFilePath_inj table1 table2 :
  dataFilePath table1 = dataFilePath table2 → table1 = table2.
Proof.
  unfold dataFilePath. intros H.
  apply (inj (String.app "data/")) in H. by apply app_inj_r in H.
Qed.

Lemma loadData_encoded d table records :
  dataFilePath table ∉ read_denied d →
  files d !! dataFilePath table = Some (Encoded records) →
  loadData d table = records.
Proof.
  intros Hr Hf. unfold loadData, fs.readFile.
  rewrite decide_False by done. by rewrite Hf.
Qed.

Lemma loadData_missing d table :
  files d !! dataFilePath table = None → loadData d table = [].
Proof.
  intros Hf. unfold loadData, fs.readFile.
  case_decide; [done|]. by rewrite Hf.
Qed.

Lemma loadData_denied d table :
  dataFilePath table ∈ read_denied d → loadData d table = [].
Proof.
  intros Hr. unfold loadData, fs.readFile. by rewrite decide_True.
Qed.

Lemma loadData_malformed d table text :
  files d !! dataFilePath table = Some (Malformed text) → loadData d table = [].
Proof.
  intros Hf. unfold loadData, fs.readFile.
  case_decide; [done|]. by rewrite Hf.
Qed.

Lemma saveData_denied d data table :
  dataFilePath table ∈ write_denied d → saveData d data table = d.
Proof.
  intros Hw. unfold saveData, fs.writeFile. by rewrite decide_True.
Qed.

Lemma saveData_files d data table :
  dataFilePath table ∉ write_denied d →
  files (saveData d data table) = <[dataFilePath table := Encoded data]> (files d).
Proof.
  intros Hw. unfold saveData, fs.writeFile. by rewrite decide_False.
Qed.

Lemma saveData_read_denied d data table :
  read_denied (saveData d data table) = read_denied d.
Proof. unfold saveData, fs.writeFile. by case_decide. Qed.

Lemma saveData_write_denied d data table :
  write_denied (saveData d data table) = write_denied d.
Proof. unfold saveData, fs.writeFile. by case_decide. Qed.

Lemma saveData_accessible d data table table' :
  accessible (saveData d data table) table' ↔ accessible d table'.
Proof. unfold accessible. by rewrite saveData_read_denied, saveData_write_denied. Qed.

Lemma saveData_files_other d data table table' :
  table ≠ table' →
  files (saveData d data table) !! dataFilePath table' = files d !! dataFilePath table'.
Proof.
  intros Hne. unfold saveData, fs.writeFile. case_decide; [done|]. simpl.
  apply lookup_insert_ne. intros H'. by apply dataFilePath_inj in H'.
Qed.

Lemma loadData_ext d1 d2 table :
  read_denied d1 = read_denied d2 →
  files d1 !! dataFilePath table = files d2 !! dataFilePath table →
  loadData d1 table = loadData d2 table.
Proof. intros Hr Hf. unfold loadData, fs.readFile. by rewrite Hr, Hf. Qed.

Lemma loadData_saveData_other d data table table' :
  table ≠ table' → loadData (saveData d data table) table' = loadData d table'.
Proof.
  intros Hne. apply loadData_ext.
  - apply saveData_read_denied.
  - by apply saveData_files_other.
Qed.

Lemma loadData_saveData d data table :
  accessible d table → loadData (saveData d data table) table = data.
Proof.
  intros [Hr Hw]. apply loadData_encoded.
  - by rewrite saveData_read_denied.
  - rewrite saveData_files by done. apply lookup_insert_eq.
Qed.

(** [fs.writeFile] opens the file for writing, then writes the text. *)
Lemma writeFile_open_write (d : Disk) (path : string) (text : content) :
  fs.writeFile d path text
    = match fs.open_w d path with
      | Ok d' => Ok (fs.write d' path text)
      | Throw e => Throw e
      end.
Proof.
  unfold fs.writeFile, fs.open_w, fs.write. case_decide; [done|].
  cbn. by rewrite insert_insert_eq.
Qed.

End storage.

(** ** The next id *)

Section next_id.

Lemma foldl_max_ge (x : Z) (xs : list Z) : x ≤ foldl Z.max x xs.
Proof.
  revert x. induction xs as [|y xs IH]; intros x; simpl; [lia|].
  specialize (IH (Z.max x y)). lia.
Qed.

Lemma foldl_max_upper (x : Z) (xs : list Z) (y : Z) :
  y ∈ xs → y ≤ foldl Z.max x xs.
Proof.
  revert x. induction xs as [|z xs IH]; intros x Hy; simpl.
  - by apply elem_of_nil in Hy.
  - apply elem_of_cons in Hy as [->|Hy]; [|by apply IH].
    pose proof (foldl_max_ge (Z.max x z) xs). lia.
Qed.

Lemma foldl_max_elem (x : Z) (xs : list Z) : foldl Z.max x xs ∈ x :: xs.
Proof.
  revert x. induction xs as [|z xs IH]; intros x; simpl; [by left|].
  specialize (IH (Z.max x z)). apply elem_of_cons in IH as [->|IH].
  - destruct (Z.max_spec x z) as [[_ ->]|[_ ->]]; [right|]; by left.
  - by do 2 right.
Qed.

(** [newId] meets the specification of the next id. *)
Lemma newId_next_id (data : list Data) : next_id data (newId data).
Proof.
  unfold next_id, newId. destruct data as [|r0 data]; [by left|right].
  rewrite fmap_cons. pose proof (foldl_max_elem (id r0) (id <$> data)) as Hin.
  change (id r0 :: (id <$> data)) with (id <$> r0 :: data) in Hin.
  apply list_elem_of_fmap in Hin as (r & Hr & Hin).
  exists r. split; [done|]. split; [by rewrite Hr|].
  intros r' Hr'. rewrite <- Hr.
  apply elem_of_cons in Hr' as [->|Hr']; [apply foldl_max_ge|].
  apply foldl_max_upper. by apply list_elem_of_fmap_2.
Qed.

(** The next id is determined by the ids present. *)
Lemma next_id_unique (data : list Data) (n m : Z) :
  next_id data n → next_id data m → n = m.
Proof.
  intros [[-> ->]|(r & Hr & -> & Hmax)] [[E ->]|(r' & Hr' & -> & Hmax')].
  - done.
  - by apply elem_of_nil in Hr'.
  - subst. by apply elem_of_nil in Hr.
  - specialize (Hmax _ Hr'). specialize (Hmax' _ Hr). lia.
Qed.

(** After the ids 1, ..., m the next id is m + 1. *)
Lemma newId_after_seq (data : list Data) (m : nat) :
  id <$> data = Z.of_nat <$> seq 1 m → newId data = Z.of_nat m + 1.
Proof.
  intros Hids. apply (next_id_unique data); [apply newId_next_id|].
  destruct m as [|m].
  - left. split; [|done]. by destruct data.
  - right.
    assert (Z.of_nat (S m) ∈ id <$> data) as Hin.
    { rewrite Hids. apply list_elem_of_fmap_2, elem_of_seq. lia. }
    apply list_elem_of_fmap in Hin as (r & Hr & Hin).
    exists r. split; [done|]. split; [lia|].
    intros r' Hr'.
    assert (id r' ∈ Z.of_nat <$> seq 1 (S m)) as Hin'.
    { rewrite <- Hids. by apply list_elem_of_fmap_2. }
    apply list_elem_of_fmap in Hin' as (k & -> & Hk).
    apply elem_of_seq in Hk. lia.
Qed.

End next_id.

(** ** Inserts served one after another *)

Section sequential.

Implicit Types (d : Disk) (table : string) (commands : list parsedCommand).

Lemma execute_insert d table bag :
  execute d (INSERT table bag) =
    (saveData d (loadData d table ++ [newData (loadData d table) bag]) table,
     Inserted (newData (loadData d table) bag)).
Proof. done. Qed.

Lemma execute_select d table where_ :
  execute d (SELECT table where_) = (d, select_response where_ (loadData d table)).
Proof. done. Qed.

Lemma select_response_not_inserted where_ data x :
  select_response where_ data ≠ Inserted x.
Proof.
  unfold select_response. destruct where_ as [k|]; [|done].
  by destruct (List.find _ data).
Qed.

Lemma execute_accessible d c table :
  accessible (execute d c).1 table ↔ accessible d table.
Proof. destruct c; [done|]. apply saveData_accessible. Qed.

Lemma seq_snoc (start len : nat) :
  seq start (S len) = seq start len ++ [(start + len)%nat].
Proof. by rewrite seq_S. Qed.

Lemma inserts_on_cons table c commands :
  inserts_on table (c :: commands) =
    if is_insert_on table c then S (inserts_on table commands)
    else inserts_on table commands.
Proof. unfold inserts_on. simpl. by destruct (is_insert_on table c). Qed.

(** The invariant of a table that is filled by the server alone: its ids
    are 1, ..., m.  Each further INSERT on it is given the next number. *)
Lemma assigned_ids_from d table commands (m : nat) :
  accessible d table →
  id <$> loadData d table = Z.of_nat <$> seq 1 m →
  assigned_ids table commands (execute_all d commands).2
    = Z.of_nat <$> seq (S m) (inserts_on table commands)
  ∧ id <$> loadData (execute_all d commands).1 table
    = Z.of_nat <$> seq 1 (m + inserts_on table commands).
Proof.
  revert d m. induction commands as [|c commands IH]; intros d m Hacc Hids.
  { cbn. by rewrite Nat.add_0_r. }
  cbn [execute_all].
  destruct (execute d c) as [d1 r] eqn:Hex.
  destruct (execute_all d1 commands) as [d2 rs] eqn:Hall.
  assert (accessible d1 table) as Hacc1.
  { replace d1 with (execute d c).1 by by rewrite Hex. by apply execute_accessible. }
  rewrite inserts_on_cons. cbn [fst snd assigned_ids].
  destruct c as [t where_|t bag].
  - (* SELECT: nothing is written and no id is reported *)
    rewrite execute_select in Hex. injection Hex as <- <-.
    specialize (IH d m Hacc Hids). rewrite Hall in IH.
    cbn [is_insert_on].
    destruct (select_response where_ (loadData d t)); exact IH.
  - rewrite execute_insert in Hex. injection Hex as <- <-.
    pose proof (newId_after_seq _ m Hids) as Hnew.
    cbn [is_insert_on]. case_bool_decide as Ht.
    + (* INSERT on the table *)
      subst t.
      assert (id <$> loadData
                (saveData d (loadData d table ++ [newData (loadData d table) bag]) table)
                table = Z.of_nat <$> seq 1 (S m)) as Hids1.
      { rewrite loadData_saveData by done.
        rewrite fmap_app, Hids, seq_snoc, fmap_app. f_equal.
        cbn [fmap list_fmap newData id]. rewrite Hnew.
        by replace (Z.of_nat (1 + m)) with (Z.of_nat m + 1) by lia. }
      specialize (IH _ (S m) Hacc1 Hids1). rewrite Hall in IH.
      destruct IH as [IH1 IH2]. cbn [fst snd] in IH1, IH2. split.
      * rewrite IH1. cbn [seq fmap list_fmap newData id]. rewrite Hnew.
        by replace (Z.of_nat (S m)) with (Z.of_nat m + 1) by lia.
      * rewrite IH2. by rewrite Nat.add_succ_comm.
    + (* INSERT on another table *)
      assert (id <$> loadData
                (saveData d (loadData d t ++ [newData (loadData d t) bag]) t)
                table = Z.of_nat <$> seq 1 m) as Hids1.
      { by rewrite loadData_saveData_other. }
      specialize (IH _ m Hacc1 Hids1). by rewrite Hall in IH.
Qed.

End sequential.

(** C1, as stated, fails.  The table [spells] is empty and its file cannot
    be written.  Two INSERTs served one after another are both answered with
    id 1: the rejected write is swallowed by [saveData], the answer is the
    success object all the same, and the second INSERT loads an empty
    table again. *)
Lemma rejected_write_repeats_ids :
  let commands := [INSERT "spells" {["name" := "Fireball"]};
                   INSERT "spells" {["name" := "Frost"]}] in
  loadData closed_disk "spells" = [] ∧
  (serve closed_disk
     ["INSERT INTO spells (name) VALUES (Fireball)";
      "INSERT INTO spells (name) VALUES (Frost)"]).2
    = [Inserted {| id := 1; name := Some "Fireball"; description := None |};
       Inserted {| id := 1; name := Some "Frost"; description := None |}] ∧
  assigned_ids "spells" commands (execute_all closed_disk commands).2 = [1; 1].
Proof. by vm_compute. Qed.

(** C1, amended.  On a table within the limits of the runtime, an INSERT
    loads the table, gives the new record the id one above the largest id
    loaded, or 1 when nothing was loaded, appends it, saves the whole
    sequence and answers with the new record.  Hence, when commands are
    served one after another on a table that is empty at the start and
    whose file can be read and written, the ids reported for the INSERTs
    on that table are exactly 1, 2, 3, ... in order, whatever other
    commands are served in between, as long as there are no more of these
    INSERTs than the runtime accepts arguments. *)
Theorem insert_assigns_next_id :
  (∀ (d : Disk) (table : string) (bag : gmap string string),
     within_limits (loadData d table) →
     ∃ newRecord : Data,
       execute d (INSERT table bag)
         = (saveData d (loadData d table ++ [newRecord]) table, Inserted newRecord)
       ∧ next_id (loadData d table) (id newRecord))
  ∧ (∀ (d : Disk) (table : string) (commands : list parsedCommand),
       loadData d table = [] →
       accessible d table →
       Z.of_nat (inserts_on table commands) ≤ max_arguments →
       assigned_ids table commands (execute_all d commands).2
         = Z.of_nat <$> seq 1 (inserts_on table commands)).
Proof.
  split.
  - intros d table bag _. exists (newData (loadData d table) bag).
    split; [apply execute_insert|]. apply newId_next_id.
  - intros d table commands Hempty Hacc _.
    apply (assigned_ids_from d table commands 0 Hacc). by rewrite Hempty.
Qed.

Lemma insert_assigns_next_id_witness :
  let commands :=
    [INSERT "spells" {["name" := "Fireball"]};
     SELECT "spells" None;
     INSERT "potions" {["name" := "Elixir"]};
     INSERT "spells" {["name" := "Frost"; "description" := "Slows"]};
     INSERT "spells" ∅] in
  within_limits (loadData empty_disk "spells") ∧
  (∃ newRecord : Data,
     execute empty_disk (INSERT "spells" ∅)
       = (saveData empty_disk (loadData empty_disk "spells" ++ [newRecord]) "spells",
          Inserted newRecord)
     ∧ next_id (loadData empty_disk "spells") (id newRecord)) ∧
  loadData empty_disk "spells" = [] ∧
  accessible empty_disk "spells" ∧
  Z.of_nat (inserts_on "spells" commands) ≤ max_arguments ∧
  assigned_ids "spells" commands (execute_all empty_disk commands).2 = [1; 2; 3].
Proof.
  intros commands.
  assert (within_limits (loadData empty_disk "spells")) as Hlim.
  { split; [by vm_compute|]. intros x Hx. by apply elem_of_nil in Hx. }
  assert (loadData empty_disk "spells" = []) as Hempty by reflexivity.
  assert (accessible empty_disk "spells") as Hacc
    by (split; apply not_elem_of_empty).
  assert (Z.of_nat (inserts_on "spells" commands) ≤ max_arguments) as Hn
    by (by vm_compute).
  split; [exact Hlim|].
  split; [exact (proj1 insert_assigns_next_id empty_disk "spells" ∅ Hlim)|].
  split; [exact Hempty|]. split; [exact Hacc|]. split; [exact Hn|].
  exact (proj2 insert_assigns_next_id empty_disk "spells" commands Hempty Hacc Hn).
Defined.

(** ** Saving and loading *)

(** ** The text codec *)

Section codec.
Import JSONText.

Lemma chars_escape (c : ascii) (rest : string) :
  chars (escape c +:+ rest) = push c (chars rest).
Proof. destruct c as [[] [] [] [] [] [] [] []]; reflexivity. Qed.

Lemma chars_escape_all (s rest : string) :
  chars (escape_all s +:+ String dquote rest) = Some (s, rest).
Proof.
  induction s as [|c s IH]; [done|].
  cbn [escape_all]. rewrite app_assoc_string, chars_escape, IH. done.
Qed.

Lemma chars_quote (s rest : string) :
  ∃ t, quote s +:+ rest = String dquote t ∧ chars t = Some (s, rest).
Proof.
  exists (escape_all s +:+ String dquote rest). split.
  - unfold quote. by rewrite app_cons, app_assoc_string.
  - apply chars_escape_all.
Qed.


Lemma span_out (cls : ascii → bool) (rest : string) :
  starts_outside cls rest → span cls rest = (EmptyString, rest).
Proof. destruct rest as [|c rest]; [done|]. cbn. by intros ->. Qed.

Lemma span_uint (cls : ascii → bool) (d : Decimal.uint) (rest : string) :
  (∀ c, is_digit c = true → cls c = true) →
  starts_outside cls rest →
  span cls (DecimalString.NilEmpty.string_of_uint d +:+ rest) = (DecimalString.NilEmpty.string_of_uint d, rest).
Proof.
  intros Hcls Hrest. induction d as [|d IH|d IH|d IH|d IH|d IH|d IH|d IH|d IH|d IH|d IH];
    [by apply span_out|..];
    cbn [DecimalString.NilEmpty.string_of_uint]; rewrite app_cons; cbn [span];
    rewrite Hcls by done; by rewrite IH.
Qed.

Lemma to_uint_head (p : positive) (u : Decimal.uint) : Pos.to_uint p ≠ Decimal.D0 u.
Proof.
  pose proof (DecimalPos.Unsigned.to_of (Pos.to_uint p)) as H.
  rewrite DecimalPos.Unsigned.of_to in H. cbn [N.to_uint] in H. rewrite H.
  unfold Decimal.unorm.
  pose proof (DecimalFacts.nzhead_nonzero (Pos.to_uint p)) as Hnz.
  pose proof (DecimalPos.Unsigned.to_uint_nonzero p) as Hp. rewrite H in Hp.
  unfold Decimal.unorm in Hp.
  destruct (Decimal.nzhead (Pos.to_uint p)); done.
Qed.

Lemma span_uint_all (d : Decimal.uint) :
  span is_digit (DecimalString.NilEmpty.string_of_uint d)
    = (DecimalString.NilEmpty.string_of_uint d, EmptyString).
Proof.
  rewrite <- (app_empty_r (DecimalString.NilEmpty.string_of_uint d)) at 1. by apply span_uint.
Qed.

Lemma is_number_uint (p : positive) :
  is_number (DecimalString.NilEmpty.string_of_uint (Pos.to_uint p)) = true ∧
  is_number (String "-" (DecimalString.NilEmpty.string_of_uint (Pos.to_uint p))) = true ∧
  DecimalString.NilZero.string_of_uint (Pos.to_uint p) = DecimalString.NilEmpty.string_of_uint (Pos.to_uint p).
Proof.
  pose proof (to_uint_head p) as Hhead.
  pose proof (DecimalPos.Unsigned.to_uint_nonnil p) as Hnil.
  destruct (Pos.to_uint p) as [|d|d|d|d|d|d|d|d|d|d] eqn:Hp; [done|by destruct (Hhead d)|..];
    (split; [|split; [|done]]);
    unfold is_number; cbn [DecimalString.NilEmpty.string_of_uint span];
    rewrite span_uint_all; reflexivity.
Qed.



Lemma number_head (z : Z) :
  ∃ c t, number z = String c t ∧ is_digit c || Ascii.eqb c "-" = true.
Proof.
  unfold number. destruct z as [|p|p]; cbn [Z.to_int DecimalString.NilZero.string_of_int].
  - by exists "0"%char, EmptyString.
  - pose proof (DecimalPos.Unsigned.to_uint_nonnil p).
    destruct (Pos.to_uint p); [done|..]; by eexists _, _.
  - by eexists _, _.
Qed.

Lemma span_number (z : Z) (rest : string) :
  starts_outside is_number_char rest →
  span is_number_char (number z +:+ rest) = (number z, rest).
Proof.
  intros Hrest.
  assert (∀ c, is_digit c = true → is_number_char c = true) as Hcls.
  { intros c Hc. unfold is_number_char. by rewrite Hc. }
  unfold number. destruct z as [|p|p]; cbn [Z.to_int DecimalString.NilZero.string_of_int].
  - by apply (span_uint is_number_char (Decimal.D0 Decimal.Nil)).
  - destruct (is_number_uint p) as (_ & _ & ->). by apply span_uint.
  - destruct (is_number_uint p) as (_ & _ & ->). rewrite app_cons. cbn [span].
    change (is_number_char "-") with true. cbn iota. by rewrite span_uint.
Qed.

Lemma is_number_number (z : Z) : is_number (number z) = true.
Proof.
  unfold number. destruct z as [|p|p]; cbn [Z.to_int DecimalString.NilZero.string_of_int]; [done|..];
    destruct (is_number_uint p) as (H1 & H2 & ->); done.
Qed.

Lemma value_number_char (fuel : nat) (c : ascii) (s : string) :
  is_digit c || Ascii.eqb c "-" = true →
  value (S fuel) (String c s)
    = let '(run, rest) := span is_number_char (String c s) in
      if is_number run then Some (JNumber run, rest) else None.
Proof.
  destruct c as [[] [] [] [] [] [] [] []]; intros H; try discriminate H; reflexivity.
Qed.

(** A printed number is read back as its literal. *)
Lemma value_number (fuel : nat) (z : Z) (rest : string) :
  starts_outside is_number_char rest →
  value (S fuel) (number z +:+ rest) = Some (JNumber (number z), rest).
Proof.
  intros Hrest. destruct (number_head z) as (c & t & Hz & Hc).
  pose proof (span_number z rest Hrest) as Hspan.
  pose proof (is_number_number z) as Hnum.
  rewrite Hz in *. rewrite app_cons in *.
  rewrite value_number_char by done. rewrite Hspan. by rewrite Hnum.
Qed.

Lemma integer_of_number (z : Z) :
  - (2 ^ 53 - 1) ≤ z ≤ 2 ^ 53 - 1 → integer_of (number z) = Some z.
Proof.
  intros Hz. unfold integer_of, number. rewrite DecimalString.NilZero.isi.
  - rewrite DecimalZ.of_to. by rewrite decide_True.
  - destruct z as [|p|p]; cbn; try done.
    intros [= H]. by apply (DecimalPos.Unsigned.to_uint_nonnil p).
  - destruct z as [|p|p]; cbn; try done.
    intros [= H]. by apply (DecimalPos.Unsigned.to_uint_nonnil p).
Qed.


Lemma skip_ws_idemp (s : string) : skip_ws (skip_ws s) = skip_ws s.
Proof.
  induction s as [|c s IH]; [done|]. cbn [skip_ws].
  destruct (is_ws c) eqn:Hc; [done|]. cbn [skip_ws]. by rewrite Hc.
Qed.

Lemma value_eq (fuel : nat) (s : string) :
  value (S fuel) s =
    match skip_ws s with
    | EmptyString => None
    | String c s' =>
        if Ascii.eqb c dquote then
          match chars s' with
          | Some (text, rest) => Some (JString text, rest)
          | None => None
          end
        else if Ascii.eqb c "[" then
          match skip_ws s' with
          | String "]" rest => Some (JArray [], rest)
          | _ => elements fuel s' []
          end
        else if Ascii.eqb c "{" then
          match skip_ws s' with
          | String "}" rest => Some (JObject [], rest)
          | _ => members fuel s' []
          end
        else if Ascii.eqb c "t" then literal "true" (JBool true) (String c s')
        else if Ascii.eqb c "f" then literal "false" (JBool false) (String c s')
        else if Ascii.eqb c "n" then literal "null" JNull (String c s')
        else
          let '(run, rest) := span is_number_char (String c s') in
          if is_number run then Some (JNumber run, rest) else None
    end.
Proof. reflexivity. Qed.

Lemma value_skip_ws (fuel : nat) (s : string) : value fuel (skip_ws s) = value fuel s.
Proof. destruct fuel; [done|]. by rewrite !value_eq, skip_ws_idemp. Qed.

Lemma value_ws (fuel : nat) (c : ascii) (s : string) :
  is_ws c = true → value fuel (String c s) = value fuel s.
Proof.
  intros Hc. rewrite <- (value_skip_ws fuel (String c s)). cbn [skip_ws].
  rewrite Hc. apply value_skip_ws.
Qed.

Lemma printed_number (z : Z) : printed 1 (number z) (JNumber (number z)).
Proof.
  intros [|fuel] rest Hfuel Hrest; [lia|]. by apply value_number.
Qed.

Lemma printed_quote (s : string) : printed 1 (quote s) (JString s).
Proof.
  intros [|fuel] rest Hfuel _; [lia|].
  destruct (chars_quote s rest) as (t & -> & Ht).
  rewrite value_eq. cbn [skip_ws]. change (is_ws dquote) with false. cbn iota.
  change (Ascii.eqb dquote dquote) with true. cbn iota. by rewrite Ht.
Qed.


Lemma members_eq (fuel : nat) (s : string) (acc : list (string * json)) :
  members (S fuel) s acc =
    match skip_ws s with
    | String c s' =>
        if Ascii.eqb c dquote then
          match chars s' with
          | Some (key, rest) =>
              match skip_ws rest with
              | String ":" rest' =>
                  match value fuel rest' with
                  | Some (v, rest'') =>
                      match skip_ws rest'' with
                      | String "," r => members fuel r (acc ++ [(key, v)])
                      | String "}" r => Some (JObject (acc ++ [(key, v)]), r)
                      | _ => None
                      end
                  | None => None
                  end
              | _ => None
              end
          | None => None
          end
        else None
    | EmptyString => None
    end.
Proof. reflexivity. Qed.

Lemma elements_eq (fuel : nat) (s : string) (acc : list json) :
  elements (S fuel) s acc =
    match value fuel s with
    | Some (v, rest) =>
        match skip_ws rest with
        | String "," rest' => elements fuel rest' (acc ++ [v])
        | String "]" rest' => Some (JArray (acc ++ [v]), rest')
        | _ => None
        end
    | None => None
    end.
Proof. reflexivity. Qed.

(** One member on its line, before [tail]. *)
Lemma members_step (fuel n : nat) (key text : string) (v : json)
    (tail : string) (acc : list (string * json)) :
  printed n text v → (n ≤ fuel)%nat → starts_outside is_number_char tail →
  members (S fuel) (String newline ("    " +:+ member_text (key, text) +:+ tail)) acc
    = match skip_ws tail with
      | String "," r => members fuel r (acc ++ [(key, v)])
      | String "}" r => Some (JObject (acc ++ [(key, v)]), r)
      | _ => None
      end.
Proof.
  intros Hv Hfuel Htail. rewrite members_eq.
  unfold member_text. cbn [fst snd]. rewrite app_assoc_string.
  destruct (chars_quote key (String ":" (String " " text) +:+ tail)) as (t & -> & Ht).
  change ("    " +:+ String dquote t)
    with (String " " (String " " (String " " (String " " (String dquote t))))).
  cbn [skip_ws]. change (is_ws newline) with true.
  change (is_ws " ") with true. change (is_ws dquote) with false. cbn iota.
  change (Ascii.eqb dquote dquote) with true. cbn iota. rewrite Ht.
  rewrite !app_cons. cbn [skip_ws]. change (is_ws ":") with false. cbn iota.
  rewrite value_ws by done. by rewrite (Hv fuel tail Hfuel Htail).
Qed.


Lemma lines_single (indent text tail : string) :
  lines indent [text] +:+ tail = String newline (indent +:+ text +:+ tail).
Proof. cbn [lines]. by rewrite app_cons, app_assoc_string. Qed.

Lemma lines_cons (indent text text' : string) (texts : list string) (tail : string) :
  lines indent (text :: text' :: texts) +:+ tail
    = String newline
        (indent +:+ text +:+ String "," (lines indent (text' :: texts) +:+ tail)).
Proof.
  change (lines indent (text :: text' :: texts))
    with (String newline
            (indent +:+ text +:+ String "," (lines indent (text' :: texts)))).
  by rewrite app_cons, !app_assoc_string, app_cons.
Qed.

(** The members of an object, each printed on its line, are read back in
    order. *)
Lemma members_lines (n : nat) (ms : list (string * string * json)) :
  Forall (λ m, printed n m.1.2 m.2) ms → ms ≠ [] →
  ∀ fuel acc rest, (n + length ms ≤ fuel)%nat →
    members fuel
      (lines "    " ((λ m, member_text m.1) <$> ms)
         +:+ String newline (String " " (String " " (String "}" rest)))) acc
      = Some (JObject (acc ++ ((λ m, (m.1.1, m.2)) <$> ms)), rest).
Proof.
  induction ms as [|[[key text] v] ms IH]; [done|]. intros Hall _ fuel acc rest Hfuel.
  apply Forall_cons in Hall as [Hv Hall]. cbn [fst snd] in Hv.
  destruct fuel as [|fuel]; [cbn in Hfuel; lia|]. cbn [length] in Hfuel.
  destruct ms as [|m' ms].
  - rewrite !fmap_cons, fmap_nil. cbn [fst snd]. rewrite lines_single.
    by rewrite (members_step fuel n key text v _ acc Hv) by (done || lia).
  - rewrite fmap_cons. rewrite (fmap_cons _ m' ms). cbn [fst snd].
    rewrite lines_cons.
    rewrite (members_step fuel n key text v _ acc Hv) by (done || lia).
    cbn [skip_ws]. change (is_ws ",") with false. cbn iota.
    rewrite <- (fmap_cons (λ m, member_text m.1) m' ms).
    rewrite IH by (done || cbn [length] in *; lia).
    by rewrite <- app_assoc.
Qed.


Lemma printed_object (r : Data) : printed 5 (object r) (json_of r).
Proof.
  intros fuel rest Hfuel _. destruct fuel as [|fuel]; [lia|].
  unfold object. rewrite app_cons, app_assoc_string, !app_cons. rewrite value_eq.
  cbn [skip_ws]. change (is_ws "{") with false. cbn iota.
  change (Ascii.eqb "{" dquote) with false. change (Ascii.eqb "{" "[") with false.
  change (Ascii.eqb "{" "{") with true. cbn iota.
  change ("" +:+ rest) with rest.
  assert (∃ t, skip_ws (lines "    " (member_text <$> members_of r)
                         +:+ String newline (String " " (String " " (String "}" rest))))
               = String dquote t) as [t Ht].
  { unfold members_of. cbn [app]. rewrite fmap_cons.
    destruct (member_text <$> text_member "name" (name r)
                ++ text_member "description" (description r)) as [|text' texts];
      [rewrite lines_single|rewrite lines_cons];
      unfold member_text at 1; cbn [fst snd]; rewrite app_assoc_string;
      match goal with |- context [quote "id" +:+ ?tail] =>
        destruct (chars_quote "id" tail) as (t & -> & _) end;
      by exists t. }
  rewrite Ht. unfold dquote at 1. cbn iota.
  destruct r as [i [n|] [d|]]; cbn [id name description];
    unfold json_of, members_of; cbn [id name description text_member text_json app].
  - apply (members_lines 1 [("id", number i, JNumber (number i));
                            ("name", quote n, JString n);
                            ("description", quote d, JString d)]);
      [|done|cbn; lia].
    repeat constructor; (apply printed_number || apply printed_quote).
  - apply (members_lines 1 [("id", number i, JNumber (number i));
                            ("name", quote n, JString n)]);
      [|done|cbn; lia].
    repeat constructor; (apply printed_number || apply printed_quote).
  - apply (members_lines 1 [("id", number i, JNumber (number i));
                            ("description", quote d, JString d)]);
      [|done|cbn; lia].
    repeat constructor; (apply printed_number || apply printed_quote).
  - apply (members_lines 1 [("id", number i, JNumber (number i))]);
      [|done|cbn; lia].
    repeat constructor; (apply printed_number || apply printed_quote).
Qed.


Lemma elements_step (fuel n : nat) (text : string) (v : json)
    (tail : string) (acc : list json) :
  printed n text v → (n ≤ fuel)%nat → starts_outside is_number_char tail →
  elements (S fuel) (String newline ("  " +:+ text +:+ tail)) acc
    = match skip_ws tail with
      | String "," r => elements fuel r (acc ++ [v])
      | String "]" r => Some (JArray (acc ++ [v]), r)
      | _ => None
      end.
Proof.
  intros Hv Hfuel Htail. rewrite elements_eq.
  change ("  " +:+ text +:+ tail) with (String " " (String " " (text +:+ tail))).
  rewrite !value_ws by done. by rewrite (Hv fuel tail Hfuel Htail).
Qed.

(** The elements of an array, each printed on its line, are read back in
    order. *)
Lemma elements_lines (n : nat) (es : list (string * json)) :
  Forall (λ e, printed n e.1 e.2) es → es ≠ [] →
  ∀ fuel acc rest, (n + length es ≤ fuel)%nat →
    elements fuel (lines "  " (fst <$> es) +:+ String newline (String "]" rest)) acc
      = Some (JArray (acc ++ (snd <$> es)), rest).
Proof.
  induction es as [|[text v] es IH]; [done|]. intros Hall _ fuel acc rest Hfuel.
  apply Forall_cons in Hall as [Hv Hall]. cbn [fst snd] in Hv.
  destruct fuel as [|fuel]; [cbn in Hfuel; lia|]. cbn [length] in Hfuel.
  destruct es as [|e' es].
  - rewrite !fmap_cons, !fmap_nil. cbn [fst snd]. rewrite lines_single.
    by rewrite (elements_step fuel n text v _ acc Hv) by (done || lia).
  - rewrite !(fmap_cons _ (text, v)). rewrite (fmap_cons fst e' es). cbn [fst snd].
    rewrite lines_cons.
    rewrite (elements_step fuel n text v _ acc Hv) by (done || lia).
    cbn [skip_ws]. change (is_ws ",") with false. cbn iota.
    rewrite <- (fmap_cons fst e' es).
    rewrite IH by (done || cbn [length] in *; lia).
    by rewrite <- app_assoc.
Qed.

Lemma length_lines (indent : string) (texts : list string) :
  (length texts ≤ String.length (lines indent texts))%nat.
Proof.
  induction texts as [|text texts IH]; [done|].
  destruct texts as [|text' texts].
  - cbn. lia.
  - change (lines indent (text :: text' :: texts))
      with (String newline
              (indent +:+ text +:+ String "," (lines indent (text' :: texts)))).
    cbn [String.length length] in *. rewrite !length_append. cbn [String.length]. lia.
Qed.

(** [JSON.parse] reads what [JSON.stringify] prints. *)
Lemma parse_stringify (data : list Data) :
  parse (stringify data) = Some (JArray (json_of <$> data)).
Proof.
  destruct data as [|r data]; [reflexivity|].
  unfold parse, stringify.
  remember (r :: data) as R eqn:HR.
  assert (R ≠ []) as Hne by (by subst R).
  pose proof (length_lines "  " (object <$> R)) as Hlen. rewrite length_fmap in Hlen.
  set (text := String "[" (lines "  " (object <$> R) +:+ String newline "]")).
  assert (5 + length R + 1 ≤ 2 * String.length text + 2)%nat as Hfuel.
  { unfold text. cbn [String.length]. rewrite length_append. cbn [String.length]. lia. }
  destruct (2 * String.length text + 2)%nat as [|fuel]; [lia|].
  unfold text. rewrite value_eq. cbn [skip_ws]. change (is_ws "[") with false.
  cbn iota. change (Ascii.eqb "[" dquote) with false.
  change (Ascii.eqb "[" "[") with true. cbn iota.
  assert (∃ t, skip_ws (lines "  " (object <$> R) +:+ String newline "]")
               = String "{" t) as [t Ht].
  { subst R. rewrite fmap_cons.
    destruct (object <$> data) as [|text' texts];
      [rewrite lines_single|rewrite lines_cons]; by eexists. }
  rewrite Ht.
  pose proof (elements_lines 5 ((λ r, (object r, json_of r)) <$> R)) as Hes.
  rewrite <- !list_fmap_compose in Hes.
  change (fst ∘ (λ r, (object r, json_of r))) with object in Hes.
  change (snd ∘ (λ r, (object r, json_of r))) with json_of in Hes.
  rewrite Hes.
  - by rewrite decide_True.
  - apply Forall_fmap, Forall_forall. intros x _. apply printed_object.
  - by subst R.
  - rewrite length_fmap. lia.
Qed.


Lemma record_of_json_of (r : Data) :
  - (2 ^ 53 - 1) ≤ id r ≤ 2 ^ 53 - 1 → record_of (json_of r) = Some r.
Proof.
  intros Hid. destruct r as [i [n|] [d|]]; cbn [id] in Hid;
    unfold json_of, record_of; cbn [id name description text_json app];
    match goal with |- context [member "id" ?ms] =>
      change (member "id" ms) with (Some (JNumber (number i)))
    end; cbn iota; rewrite (integer_of_number i Hid); reflexivity.
Qed.

Lemma records_of_json_of (data : list Data) :
  Forall (λ r, - (2 ^ 53 - 1) ≤ id r ≤ 2 ^ 53 - 1) data →
  records_of (JArray (json_of <$> data)) = Some data.
Proof.
  intros Hall. cbn [records_of].
  induction Hall as [|r data Hr _ IH]; [done|].
  rewrite fmap_cons. cbn [mapM]. rewrite (record_of_json_of r Hr). cbn.
  by rewrite IH.
Qed.

(** What [JSON.stringify] prints for records with safe integer ids decodes
    to the same records. *)
Lemma decode_stringify (data : list Data) :
  Forall (λ r, - (2 ^ 53 - 1) ≤ id r ≤ 2 ^ 53 - 1) data →
  decode (stringify data) = Some data.
Proof.
  intros Hall. unfold decode. rewrite parse_stringify. cbn [mbind option_bind].
  by apply records_of_json_of.
Qed.

End codec.

(** C7, as stated, fails: on [read_only_disk] the file of [spells] holds
    Fireball and cannot be written.  Saving the empty sequence is
    rejected and the rejection swallowed, so loading the table afterwards
    returns Fireball, not the empty sequence that was saved. *)
Lemma rejected_save_is_not_loaded :
  let fireball := {| id := 1; name := Some "Fireball"; description := None |} in
  saveData read_only_disk [] "spells" = read_only_disk ∧
  loadData (saveData read_only_disk [] "spells") "spells" = [fireball] ∧
  loadData (saveData read_only_disk [] "spells") "spells" ≠ [].
Proof. by vm_compute. Qed.

(** C7, amended.  For a table whose file can be read and written and a
    record sequence with safe integer ids, saving the sequence and then
    loading the table returns the sequence: the file then holds the text
    that [JSON.stringify] prints for it, this text decodes to the same
    records, and [loadData] returns them. *)
Theorem save_load_round_trip (d : Disk) (table : string) (R : list Data) :
  accessible d table →
  Forall (λ r, - max_safe_integer ≤ id r ≤ max_safe_integer) R →
  files (saveData d R table) !! dataFilePath table = Some (JSON.stringify R) ∧
  JSONText.decode (file_text (JSON.stringify R)) = Some R ∧
  loadData (saveData d R table) table = R.
Proof.
  intros Hacc Hsafe. split; [|split].
  - destruct Hacc as [_ Hw]. rewrite saveData_files by done. apply lookup_insert_eq.
  - cbn [file_text JSON.stringify]. by apply decode_stringify.
  - by apply loadData_saveData.
Qed.

Lemma save_load_round_trip_witness :
  let R := [{| id := 1; name := Some "Fireball"; description := None |};
            {| id := 2; name := None; description := Some "Slows" |}] in
  accessible empty_disk "spells" ∧
  Forall (λ r, - max_safe_integer ≤ id r ≤ max_safe_integer) R ∧
  JSONText.decode (file_text (JSON.stringify R)) = Some R ∧
  loadData (saveData empty_disk R "spells") "spells" = R.
Proof.
  intros R.
  assert (accessible empty_disk "spells") as Hacc
    by (split; apply not_elem_of_empty).
  assert (Forall (λ r, - max_safe_integer ≤ id r ≤ max_safe_integer) R) as Hsafe
    by (repeat constructor; by vm_compute).
  split; [exact Hacc|]. split; [exact Hsafe|].
  exact (proj2 (save_load_round_trip empty_disk "spells" R Hacc Hsafe)).
Defined.




(** C4, as stated, fails: a table whose file exists but does not decode,
    or cannot be read, is loaded as the empty sequence and a SELECT on it
    is answered with the empty array, not with an error. *)
Lemma corrupt_table_reported_empty :
  (fs.readFile corrupt_disk (dataFilePath "spells") ≫= JSON.parse)
    = Throw "SyntaxError: Unexpected token in JSON" ∧
  loadData corrupt_disk "spells" = [] ∧
  on_data corrupt_disk "SELECT * FROM spells" = (corrupt_disk, Rows []) ∧
  fs.readFile corrupt_disk (dataFilePath "potions")
    = Throw "EACCES: permission denied" ∧
  loadData corrupt_disk "potions" = [] ∧
  on_data corrupt_disk "SELECT * FROM potions" = (corrupt_disk, Rows []).
Proof. by vm_compute. Qed.

(** C4, amended.  [loadData] never fails with an error.  It returns the
    records of the file when the file can be read and its text is the
    JSON of a record sequence.  It returns the empty sequence in each of
    these three cases: there is no file, the file cannot be read, the
    text of the file is not valid JSON.  A SELECT of a whole table answers
    with what [loadData] returned.  (A file whose text is valid JSON of
    another shape than a record sequence is in none of these cases, and
    nothing is stated about it.) *)
Theorem load_never_fails (d : Disk) (table : string) :
  (∀ records,
     dataFilePath table ∉ read_denied d →
     files d !! dataFilePath table = Some (Encoded records) →
     loadData d table = records) ∧
  (files d !! dataFilePath table = None → loadData d table = []) ∧
  (dataFilePath table ∈ read_denied d → loadData d table = []) ∧
  (∀ text,
     files d !! dataFilePath table = Some (Malformed text) →
     loadData d table = []) ∧
  execute d (SELECT table None) = (d, Rows (loadData d table)).
Proof.
  split; [intros records; apply loadData_encoded|].
  split; [apply loadData_missing|].
  split; [apply loadData_denied|].
  split; [intros text; apply loadData_malformed|done].
Qed.

Lemma load_never_fails_witness :
  files corrupt_disk !! dataFilePath "spells" = Some (Malformed "[{ id: 1, ") ∧
  loadData corrupt_disk "spells" = [] ∧
  dataFilePath "potions" ∈ read_denied corrupt_disk ∧
  loadData corrupt_disk "potions" = [] ∧
  files empty_disk !! dataFilePath "spells" = None ∧
  loadData empty_disk "spells" = [] ∧
  (dataFilePath "spells" ∉ read_denied read_only_disk) ∧
  files read_only_disk !! dataFilePath "spells"
    = Some (Encoded [{| id := 1; name := Some "Fireball"; description := None |}]) ∧
  loadData read_only_disk "spells"
    = [{| id := 1; name := Some "Fireball"; description := None |}].
Proof.
  assert (files corrupt_disk !! dataFilePath "spells" = Some (Malformed "[{ id: 1, "))
    as H1 by reflexivity.
  assert (dataFilePath "potions" ∈ read_denied corrupt_disk) as H2
    by (vm_compute; reflexivity).
  assert (files empty_disk !! dataFilePath "spells" = None) as H3 by reflexivity.
  assert (dataFilePath "spells" ∉ read_denied read_only_disk) as H4
    by apply not_elem_of_empty.
  assert (files read_only_disk !! dataFilePath "spells"
    = Some (Encoded [{| id := 1; name := Some "Fireball"; description := None |}]))
    as H5 by reflexivity.
  split; [exact H1|].
  split; [exact (proj1 (proj2 (proj2 (proj2 (load_never_fails corrupt_disk "spells")))) _ H1)|].
  split; [exact H2|].
  split; [exact (proj1 (proj2 (proj2 (load_never_fails corrupt_disk "potions"))) H2)|].
  split; [exact H3|].
  split; [exact (proj1 (proj2 (load_never_fails empty_disk "spells")) H3)|].
  split; [exact H4|].
  split; [exact H5|].
  exact (proj1 (load_never_fails read_only_disk "spells") _ H4 H5).
Defined.

(** ** SELECT by id *)

Section select.

Lemma find_id_Some (data : list Data) (k : Z) (datum : Data) :
  List.find (λ s, bool_decide (id s = k)) data = Some datum →
  datum ∈ data ∧ id datum = k.
Proof.
  intros H. apply find_some in H as [Hin Hk].
  split; [by apply list_elem_of_In|]. by apply bool_decide_eq_true in Hk.
Qed.

Lemma find_id_None (data : list Data) (k : Z) :
  List.find (λ s, bool_decide (id s = k)) data = None ↔
  ∀ x, x ∈ data → id x ≠ k.
Proof.
  split.
  - intros H x Hx. apply list_elem_of_In in Hx.
    pose proof (find_none _ _ H x Hx) as Hk. by apply bool_decide_eq_false in Hk.
  - intros H. destruct (List.find _ data) as [datum|] eqn:E; [|done].
    apply find_id_Some in E as [Hin Hk]. by destruct (H datum Hin).
Qed.

(** [find] returns the first record with the id. *)
Lemma find_id_first (pre post : list Data) (k : Z) (datum : Data) :
  id datum = k → (∀ x, x ∈ pre → id x ≠ k) →
  List.find (λ s, bool_decide (id s = k)) (pre ++ datum :: post) = Some datum.
Proof.
  intros Hk Hpre. induction pre as [|x pre IH]; simpl.
  - by rewrite bool_decide_eq_true_2.
  - rewrite bool_decide_eq_false_2 by (apply Hpre; left).
    apply IH. intros y Hy. apply Hpre. by right.
Qed.

End select.

(** C6.  A SELECT by id loads the table and writes nothing.  When a loaded
    record has the requested id, the answer is an array of exactly one
    record, a loaded record with that id (the first in table order);
    when none has, the answer is the error [Data not found].  No answer
    holds more than one record. *)
Theorem select_by_id (d : Disk) (table : string) (k : Z) :
  let data := loadData d table in
  let r := (execute d (SELECT table (Some k))).2 in
  (execute d (SELECT table (Some k))).1 = d ∧
  ((∃ x, x ∈ data ∧ id x = k) →
     ∃ datum, r = Rows [datum] ∧ datum ∈ data ∧ id datum = k) ∧
  (∀ pre datum post,
     data = pre ++ datum :: post → id datum = k → (∀ x, x ∈ pre → id x ≠ k) →
     r = Rows [datum]) ∧
  ((∀ x, x ∈ data → id x ≠ k) → r = Error "Data not found") ∧
  (∀ rows, r = Rows rows → (length rows ≤ 1)%nat).
Proof.
  intros data r. subst r. rewrite execute_select. cbn [fst snd select_response].
  fold data. split; [done|]. split; [|split; [|split]].
  - intros (x & Hx & Hk).
    destruct (List.find _ data) as [datum|] eqn:E.
    + exists datum. split; [done|]. by apply find_id_Some.
    + exfalso. by apply (proj1 (find_id_None data k) E x).
  - intros pre datum post -> Hk Hpre. by rewrite find_id_first.
  - intros Hnone. by rewrite (proj2 (find_id_None data k) Hnone).
  - intros rows. destruct (List.find _ data); intros [= <-]. simpl. lia.
Qed.

Lemma select_by_id_witness :
  let d := saveData empty_disk
             [{| id := 1; name := Some "Fireball"; description := None |};
              {| id := 2; name := Some "Frost"; description := Some "Slows" |}]
             "spells" in
  (∃ x, x ∈ loadData d "spells" ∧ id x = 2) ∧
  (∃ datum, (execute d (SELECT "spells" (Some 2))).2 = Rows [datum]
            ∧ datum ∈ loadData d "spells" ∧ id datum = 2) ∧
  (∀ x, x ∈ loadData d "spells" → id x ≠ 99) ∧
  (execute d (SELECT "spells" (Some 99))).2 = Error "Data not found".
Proof.
  intros d.
  assert (∃ x, x ∈ loadData d "spells" ∧ id x = 2) as H1.
  { exists {| id := 2; name := Some "Frost"; description := Some "Slows" |}.
    split; [|reflexivity]. right. left. }
  assert (∀ x, x ∈ loadData d "spells" → id x ≠ 99) as H2.
  { intros x Hx. change (loadData d "spells") with
      [{| id := 1; name := Some "Fireball"; description := None |};
       {| id := 2; name := Some "Frost"; description := Some "Slows" |}] in Hx.
    apply elem_of_cons in Hx as [->|Hx]; [done|].
    apply list_elem_of_singleton in Hx as ->. done. }
  split; [exact H1|].
  split; [exact (proj1 (proj2 (select_by_id d "spells" 2)) H1)|].
  split; [exact H2|].
  exact (proj1 (proj2 (proj2 (proj2 (select_by_id d "spells" 99)))) H2).
Defined.

(** ** The field bag of an INSERT *)

Section bag.

Lemma foldl_insert_lookup_notin (l : list (string * string))
    (m : gmap string string) (k : string) :
  k ∉ l.*1 →
  foldl (λ data cv, set_property data cv.1 cv.2) m l !! k = m !! k.
Proof.
  revert m. induction l as [|[c v] l IH]; intros m Hk; [done|].
  rewrite fmap_cons in Hk. apply not_elem_of_cons in Hk as [Hne Hk].
  simpl. rewrite IH by done. unfold set_property.
  case_decide; [done|]. by apply lookup_insert_ne.
Qed.

(** A column that the statement does not name is absent from the bag. *)
Lemma assign_columns_absent (columns values : list string) (k : string) :
  k ∉ columns → assign_columns columns values !! k = None.
Proof.
  intros Hk. unfold assign_columns. rewrite foldl_insert_lookup_notin; [done|].
  intros Hin. apply list_elem_of_fmap in Hin as ([c v] & -> & Hin).
  by apply elem_of_zip_l in Hin.
Qed.

(** The bag never holds the key [__proto__]. *)
Lemma assign_columns_proto (columns values : list string) :
  assign_columns columns values !! "__proto__" = None.
Proof.
  unfold assign_columns. generalize (zip columns values). intros l.
  assert (∀ m : gmap string string, m !! "__proto__" = None →
    foldl (λ data cv, set_property data cv.1 cv.2) m l !! "__proto__" = None) as H.
  { induction l as [|[c v] l IH]; intros m Hm; [done|]. simpl. apply IH.
    unfold set_property. case_decide; [done|]. by rewrite lookup_insert_ne. }
  by apply H.
Qed.

End bag.

(** C9, as stated, fails: the record is not always persisted.  On
    [read_only_disk] an INSERT that names neither [name] nor [description]
    is answered with the success object and a record of id 2, but the
    write is rejected and swallowed: the disk is as it was and the record
    is not in the table. *)
Lemma unwritable_insert_not_persisted :
  let r := {| id := 2; name := None; description := None |} in
  on_data read_only_disk "INSERT INTO spells (colour) VALUES (red)"
    = (read_only_disk, Inserted r) ∧
  r ∉ loadData read_only_disk "spells".
Proof.
  split; [by vm_compute|].
  intros Hin. vm_compute in Hin. apply list_elem_of_singleton in Hin. discriminate.
Qed.

(** C9, amended.  On a table within the limits of the runtime, an INSERT
    whose bag lacks [name] or [description] is not rejected: the new
    record has the next id and [undefined] for each attribute the bag
    lacks, it is appended and handed to [saveData], and the answer is the
    success object with the record.  The record is persisted when the
    file of the table can be read and written: it is then the last one
    loaded afterwards.  A bag lacks an attribute as soon as the statement
    does not name the column. *)
Theorem insert_without_fields (d : Disk) (table : string) (bag : gmap string string) :
  let data := loadData d table in
  let r := {| id := newId data;
              name := bag !! "name";
              description := bag !! "description" |} in
  within_limits data →
  execute d (INSERT table bag) = (saveData d (data ++ [r]) table, Inserted r) ∧
  (bag !! "name" = None → name r = None) ∧
  (bag !! "description" = None → description r = None) ∧
  (accessible d table →
     loadData (execute d (INSERT table bag)).1 table = data ++ [r]) ∧
  (∀ columns values k,
     k ∉ columns → assign_columns columns values !! k = None).
Proof.
  intros data r _. split; [apply execute_insert|].
  split; [done|]. split; [done|]. split.
  - intros Hacc. rewrite execute_insert. cbn [fst]. by apply loadData_saveData.
  - apply assign_columns_absent.
Qed.

Lemma insert_without_fields_witness :
  let bag : gmap string string := {["colour" := "red"]} in
  within_limits (loadData empty_disk "spells") ∧
  bag !! "name" = None ∧
  bag !! "description" = None ∧
  accessible empty_disk "spells" ∧
  execute empty_disk (INSERT "spells" bag)
    = (saveData empty_disk [{| id := 1; name := None; description := None |}] "spells",
       Inserted {| id := 1; name := None; description := None |}) ∧
  loadData (execute empty_disk (INSERT "spells" bag)).1 "spells"
    = [{| id := 1; name := None; description := None |}] ∧
  on_data empty_disk "INSERT INTO spells (colour) VALUES (red)"
    = execute empty_disk (INSERT "spells" bag).
Proof.
  intros bag.
  assert (within_limits (loadData empty_disk "spells")) as Hlim.
  { split; [by vm_compute|]. intros x Hx. by apply elem_of_nil in Hx. }
  assert (accessible empty_disk "spells") as Hacc
    by (split; apply not_elem_of_empty).
  split; [exact Hlim|].
  split; [reflexivity|]. split; [reflexivity|]. split; [exact Hacc|].
  split; [exact (proj1 (insert_without_fields empty_disk "spells" bag Hlim))|].
  split; [|by vm_compute].
  exact (proj1 (proj2 (proj2 (proj2 (insert_without_fields empty_disk "spells" bag Hlim)))) Hacc).
Defined.

(** C10.  The record of an INSERT is built from the loaded table and from
    the bag at [name] and [description] alone.  Two bags that agree there
    give the same record, the same file and the same answer; so any
    other column, a column [id] among them, changes nothing, and the id
    of the record is the one the server computes. *)
Theorem other_columns_ignored (d : Disk) (table : string) (bag : gmap string string) :
  (∀ bag' : gmap string string,
     bag' !! "name" = bag !! "name" →
     bag' !! "description" = bag !! "description" →
     execute d (INSERT table bag') = execute d (INSERT table bag)) ∧
  (∀ col v,
     col ≠ "name" → col ≠ "description" →
     execute d (INSERT table (<[col := v]> bag)) = execute d (INSERT table bag)) ∧
  (∀ v newRecord,
     (execute d (INSERT table (<["id" := v]> bag))).2 = Inserted newRecord →
     id newRecord = newId (loadData d table)).
Proof.
  assert (∀ bag' : gmap string string,
     bag' !! "name" = bag !! "name" →
     bag' !! "description" = bag !! "description" →
     execute d (INSERT table bag') = execute d (INSERT table bag)) as Hagree.
  { intros bag' Hn Hd. rewrite !execute_insert. unfold newData. by rewrite Hn, Hd. }
  split; [exact Hagree|]. split.
  - intros col v Hn Hd. apply Hagree; by apply lookup_insert_ne.
  - intros v newRecord. rewrite execute_insert. cbn [snd]. by intros [= <-].
Qed.

Lemma other_columns_ignored_witness :
  let bag : gmap string string := {["name" := "Ice"]} in
  "id" ≠ "name" ∧ "id" ≠ "description" ∧
  execute empty_disk (INSERT "spells" (<["id" := "77"]> bag))
    = execute empty_disk (INSERT "spells" bag) ∧
  on_data empty_disk "INSERT INTO spells (id, name) VALUES (77, Ice)"
    = (saveData empty_disk [{| id := 1; name := Some "Ice"; description := None |}] "spells",
       Inserted {| id := 1; name := Some "Ice"; description := None |}).
Proof.
  intros bag.
  assert ("id" ≠ "name") as H1 by discriminate.
  assert ("id" ≠ "description") as H2 by discriminate.
  split; [exact H1|]. split; [exact H2|]. split; [|by vm_compute].
  exact (proj1 (proj2 (other_columns_ignored empty_disk "spells" bag)) "id" "77" H1 H2).
Defined.

(** ** What a command writes *)

(** C8, as stated, fails: records can be deleted.  On [corrupt_disk] the
    file of [potions] holds the record of Elixir and cannot be read.  The
    failed read is swallowed by [loadData], the INSERT takes the table for
    empty, and the file it writes holds the new record alone. *)
Lemma failed_load_loses_records :
  let elixir := {| id := 1; name := Some "Elixir"; description := None |} in
  let tonic := {| id := 1; name := Some "Tonic"; description := None |} in
  let d' := (on_data corrupt_disk "INSERT INTO potions (name) VALUES (Tonic)").1 in
  files corrupt_disk !! dataFilePath "potions" = Some (Encoded [elixir]) ∧
  files d' !! dataFilePath "potions" = Some (Encoded [tonic]) ∧
  ¬ (∃ added, files d' !! dataFilePath "potions" = Some (Encoded ([elixir] ++ added))).
Proof.
  split; [by vm_compute|]. split; [by vm_compute|].
  intros [added Hadded]. vm_compute in Hadded. discriminate.
Qed.

(** C8, amended.  Only an INSERT writes.  A command that does not parse to
    an INSERT (a SELECT of either form, or an input that [sqlParser]
    rejects) leaves the disk as it is.  An INSERT leaves every file but
    the one of its table as it is.  And when a handler runs from its
    start to its end on a table file that can be read, that decodes to a
    record sequence and that is within the limits of the runtime, the
    records of the file are all still in the file afterwards, unchanged
    and in place: the handler only ever adds at the end. *)
Theorem only_insert_writes (d : Disk) (data : string) :
  let d' := (on_data d data).1 in
  ((∀ table bag, sqlParser (Js.trim data) ≠ Ok (INSERT table bag)) → d' = d) ∧
  (∀ table bag path,
     sqlParser (Js.trim data) = Ok (INSERT table bag) →
     path ≠ dataFilePath table →
     files d' !! path = files d !! path) ∧
  (∀ table records,
     dataFilePath table ∉ read_denied d →
     files d !! dataFilePath table = Some (Encoded records) →
     within_limits records →
     ∃ added, files d' !! dataFilePath table = Some (Encoded (records ++ added))).
Proof.
  intros d'. subst d'. unfold on_data.
  destruct (sqlParser (Js.trim data)) as [[t where_|t bag]|message] eqn:Hparse.
  - (* SELECT *)
    rewrite execute_select. cbn [fst]. split; [done|]. split; [done|].
    intros table records _ Hf _. exists []. by rewrite app_nil_r.
  - (* INSERT *)
    rewrite execute_insert. cbn [fst]. split; [|split].
    + intros Hno. by destruct (Hno t bag).
    + intros table bag' path [= <- <-] Hpath.
      unfold saveData, fs.writeFile. case_decide; [done|].
      by apply lookup_insert_ne.
    + intros table records Hr Hf _.
      destruct (decide (t = table)) as [->|Hne].
      * rewrite (loadData_encoded d table records Hr Hf).
        destruct (decide (dataFilePath table ∈ write_denied d)) as [Hw|Hw].
        -- rewrite saveData_denied by done. exists []. by rewrite app_nil_r.
        -- rewrite saveData_files by done. rewrite lookup_insert_eq. by eexists.
      * rewrite saveData_files_other by done. exists []. by rewrite app_nil_r.
  - (* rejected by the parser *)
    cbn [fst]. split; [done|]. split; [done|].
    intros table records _ Hf _. exists []. by rewrite app_nil_r.
Qed.

Lemma only_insert_writes_witness :
  let r1 := {| id := 1; name := Some "Fireball"; description := None |} in
  let d := saveData empty_disk [r1] "spells" in
  (∀ table bag, sqlParser (Js.trim "SELECT * FROM spells") ≠ Ok (INSERT table bag)) ∧
  (on_data d "SELECT * FROM spells").1 = d ∧
  (∀ table bag, sqlParser (Js.trim "DROP TABLE spells") ≠ Ok (INSERT table bag)) ∧
  (on_data d "DROP TABLE spells").1 = d ∧
  (dataFilePath "spells" ∉ read_denied d) ∧
  files d !! dataFilePath "spells" = Some (Encoded [r1]) ∧
  within_limits [r1] ∧
  (∃ added,
     files (on_data d "INSERT INTO spells (name) VALUES (Frost)").1
       !! dataFilePath "spells" = Some (Encoded ([r1] ++ added))).
Proof.
  intros r1 d.
  assert (∀ table bag,
    sqlParser (Js.trim "SELECT * FROM spells") ≠ Ok (INSERT table bag)) as H1
    by (intros table bag; vm_compute; discriminate).
  assert (∀ table bag,
    sqlParser (Js.trim "DROP TABLE spells") ≠ Ok (INSERT table bag)) as H2
    by (intros table bag; vm_compute; discriminate).
  assert (dataFilePath "spells" ∉ read_denied d) as H3 by apply not_elem_of_empty.
  assert (files d !! dataFilePath "spells" = Some (Encoded [r1])) as H4 by reflexivity.
  assert (within_limits [r1]) as H5.
  { split; [by vm_compute|]. intros x Hx. apply list_elem_of_singleton in Hx.
    subst x. by vm_compute. }
  split; [exact H1|].
  split; [exact (proj1 (only_insert_writes d "SELECT * FROM spells") H1)|].
  split; [exact H2|].
  split; [exact (proj1 (only_insert_writes d "DROP TABLE spells") H2)|].
  split; [exact H3|]. split; [exact H4|]. split; [exact H5|].
  exact (proj2 (proj2 (only_insert_writes d "INSERT INTO spells (name) VALUES (Frost)"))
           "spells" [r1] H3 H4 H5).
Defined.

(** ** Handlers that overlap *)

Section schedules.

Implicit Types (d : Disk) (s : server) (i : nat).

(** Resumed three times in a row, a handler does what [on_data] does. *)
Lemma resume_thrice d data :
  let '(d1, t1) := resume d (Received data) in
  let '(d2, t2) := resume d1 t1 in
  resume d2 t2 = ((on_data d data).1, Finished (on_data d data).2).
Proof.
  unfold on_data. cbn [resume].
  destruct (sqlParser (Js.trim data)) as [[table where_|table bag]|message]; done.
Qed.

Lemma run_app (schedule1 schedule2 : list nat) s :
  run (schedule1 ++ schedule2) s = run schedule2 (run schedule1 s).
Proof. apply foldl_app. Qed.

Lemma step_thrice s i data :
  tasks s !! i = Some (Received data) →
  run [i; i; i] s =
    {| disk := (on_data (disk s) data).1;
       tasks := <[i := Finished (on_data (disk s) data).2]> (tasks s) |}.
Proof.
  intros Hi. pose proof (lookup_lt_Some _ _ _ Hi) as Hlt.
  pose proof (resume_thrice (disk s) data) as H3.
  destruct (resume (disk s) (Received data)) as [d1 t1] eqn:H1.
  destruct (resume d1 t1) as [d2 t2] eqn:H2.
  unfold run. cbn [foldl]. unfold step at 3. rewrite Hi, H1. cbn [disk tasks].
  unfold step at 2. cbn [disk tasks].
  rewrite list_lookup_insert_eq by done. rewrite H2. cbn [disk tasks].
  unfold step. cbn [disk tasks].
  rewrite list_lookup_insert_eq by (by rewrite length_insert).
  rewrite H3. by rewrite !list_insert_insert_eq.
Qed.

Lemma run_serial_from d (answered : list response) (inputs : list string) :
  run (i ← seq (length answered) (length inputs); [i; i; i])
      {| disk := d; tasks := (Finished <$> answered) ++ (Received <$> inputs) |}
  = {| disk := (serve d inputs).1;
       tasks := Finished <$> (answered ++ (serve d inputs).2) |}.
Proof.
  revert d answered. induction inputs as [|data inputs IH]; intros d answered.
  { cbn. by rewrite !app_nil_r. }
  cbn [length seq]. rewrite bind_cons, run_app.
  rewrite (step_thrice _ _ data); cbn [disk tasks].
  2:{ rewrite lookup_app_r by (by rewrite length_fmap).
      by rewrite length_fmap, Nat.sub_diag. }
  replace (<[length answered := Finished (on_data d data).2]>
             ((Finished <$> answered) ++ (Received <$> data :: inputs)))
    with ((Finished <$> (answered ++ [(on_data d data).2])) ++ (Received <$> inputs)).
  2:{ rewrite fmap_app, <- app_assoc. rewrite insert_app_r_alt by (by rewrite length_fmap).
      by rewrite length_fmap, Nat.sub_diag. }
  specialize (IH (on_data d data).1 (answered ++ [(on_data d data).2])).
  rewrite length_app, Nat.add_1_r in IH. rewrite IH.
  cbn [serve]. destruct (on_data d data) as [d1 r]. cbn [fst snd].
  destruct (serve d1 inputs) as [d2 rs]. cbn [fst snd].
  by rewrite <- app_assoc.
Qed.

Lemma responses_finished d (rs : list response) :
  responses {| disk := d; tasks := Finished <$> rs |} = Some <$> rs.
Proof. unfold responses. cbn [tasks]. by rewrite <- list_fmap_compose. Qed.

End schedules.

(** C2, as stated, fails on each of its parts the model can express.
    The handler holds no lock between loading and saving.  Two connections
    send an INSERT on the same empty table; the event loop parses both,
    resumes both after their load, then resumes both after their save:
    both are answered with id 1.  And a write is not observed atomically:
    [fs.writeFile] opens the file for writing, which empties it, before it
    writes the text, so a table that holds Fireball and is being replaced
    by Fireball and Frost is loaded as the empty sequence in between,
    which is neither of the two. *)
Lemma overlapping_inserts_collide :
  let fireball := {| id := 1; name := Some "Fireball"; description := None |} in
  let frost := {| id := 2; name := Some "Frost"; description := None |} in
  let s := run [0; 1; 0; 1; 0; 1]%nat
             {| disk := empty_disk;
                tasks := [Received "INSERT INTO spells (name) VALUES (Fireball)";
                          Received "INSERT INTO spells (name) VALUES (Frost)"] |} in
  let d := saveData empty_disk [fireball] "spells" in
  responses s
    = [Some (Inserted {| id := 1; name := Some "Fireball"; description := None |});
       Some (Inserted {| id := 1; name := Some "Frost"; description := None |})] ∧
  ∃ d',
    fs.open_w d (dataFilePath "spells") = Ok d' ∧
    saveData d [fireball; frost] "spells"
      = fs.write d' (dataFilePath "spells") (JSON.stringify [fireball; frost]) ∧
    loadData d "spells" = [fireball] ∧
    loadData d' "spells" = [] ∧
    loadData (saveData d [fireball; frost] "spells") "spells" = [fireball; frost].
Proof.
  intros fireball frost s d. split; [by vm_compute|].
  eexists. split; [reflexivity|]. by vm_compute.
Qed.

(** C2, amended.  Nothing in the server serializes the handlers, and none
    of the three guarantees holds when they overlap.  What holds is that
    when the event loop resumes each connection until it has answered
    before it resumes the next, the disk and the answers are those of
    serving the inputs one after another, for every disk and every list
    of inputs. *)
Theorem serial_schedule_is_sequential (d : Disk) (inputs : list string) :
  let s := run (serial (length inputs))
             {| disk := d; tasks := Received <$> inputs |} in
  disk s = (serve d inputs).1 ∧
  responses s = Some <$> (serve d inputs).2.
Proof.
  intros s. subst s. unfold serial.
  pose proof (run_serial_from d [] inputs) as H. cbn [length fmap list_fmap app] in H.
  rewrite H. split; [done|]. apply responses_finished.
Qed.

Section scanning.

Import Regex.

Lemma lit_sound (pat s rest : string) :
  lit pat s = Some rest → ∃ kw, s = kw +:+ rest ∧ keyword pat kw.
Proof.
  revert s. induction pat as [|p pat IH]; intros s H.
  - injection H as ->. by exists "".
  - destruct s as [|c s]; [done|]. simpl in H. case_decide as Hc; [|done].
    apply IH in H as (kw & -> & Hkw). exists (String c kw). split; [done|].
    unfold keyword in *. simpl. by rewrite Hkw, Hc.
Qed.

Lemma lit_complete (pat kw rest : string) :
  keyword pat kw → lit pat (kw +:+ rest) = Some rest.
Proof.
  unfold keyword. revert kw. induction pat as [|p pat IH]; intros kw H.
  - by destruct kw.
  - destruct kw as [|c kw]; [done|]. simpl in H. injection H as Hc Hkw.
    rewrite app_cons. simpl. rewrite decide_True by done. by apply IH.
Qed.

Lemma span_sound (cls : ascii → bool) (s run rest : string) :
  span cls s = (run, rest) →
  s = run +:+ rest ∧ str_all cls run = true ∧ starts_outside cls rest.
Proof.
  revert run rest. induction s as [|c s IH]; intros run rest H.
  - by injection H as <- <-.
  - simpl in H. destruct (cls c) eqn:Hc.
    + destruct (span cls s) as [run' rest'] eqn:Hs. injection H as <- <-.
      destruct (IH _ _ eq_refl) as (-> & Hall & Hout).
      split; [done|]. split; [|done]. simpl. by rewrite Hc.
    + by injection H as <- <-.
Qed.

Lemma span_complete (cls : ascii → bool) (run rest : string) :
  str_all cls run = true → starts_outside cls rest →
  span cls (run +:+ rest) = (run, rest).
Proof.
  intros Hall Hout. induction run as [|c run IH].
  - rewrite app_nil_l_string. destruct rest as [|c rest]; [done|].
    simpl in *. by rewrite Hout.
  - simpl in Hall. apply andb_true_iff in Hall as [Hc Hall].
    rewrite app_cons. simpl. by rewrite Hc, IH.
Qed.

Lemma plus_sound (cls : ascii → bool) (s run rest : string) :
  plus cls s = Some (run, rest) →
  s = run +:+ rest ∧ run ≠ "" ∧ str_all cls run = true ∧ starts_outside cls rest.
Proof.
  unfold plus. destruct (span cls s) as [run' rest'] eqn:Hs.
  destruct run' as [|c run']; [done|]. intros [= <- <-].
  apply span_sound in Hs as (-> & Hall & Hout). done.
Qed.

Lemma plus_complete (cls : ascii → bool) (run rest : string) :
  run ≠ "" → str_all cls run = true → starts_outside cls rest →
  plus cls (run +:+ rest) = Some (run, rest).
Proof.
  intros Hne Hall Hout. unfold plus. rewrite span_complete by done.
  by destruct run.
Qed.

(** What a pattern captures is in its denotation. *)
Lemma captures_sound (re : list item) (s : string) (groups : list string) :
  captures re s = Some groups → matches re s groups.
Proof.
  revert s groups. induction re as [|[pat|cls] re IH]; intros s groups H.
  - destruct s; [|done]. injection H as <-. constructor.
  - simpl in H. destruct (lit pat s) as [rest|] eqn:Hlit; [|done]. simpl in H.
    apply lit_sound in Hlit as (kw & -> & Hkw). constructor; auto.
  - simpl in H. destruct (plus cls s) as [[run rest]|] eqn:Hplus; [|done].
    simpl in H. destruct (captures re rest) as [groups'|] eqn:Hrest; [|done].
    injection H as <-.
    apply plus_sound in Hplus as (-> & Hne & Hall & _). constructor; auto.
Qed.

(** The rest of a guarded pattern cannot begin inside the class. *)
Lemma guarded_starts_outside cls re s groups :
  guarded (Group cls :: re) → matches re s groups → starts_outside cls s.
Proof.
  intros [Hg _] Hm. destruct Hm as [|pat re kw s groups Hkw _|]; [done| |done].
  destruct pat as [|p pat]; [done|]. unfold keyword in Hkw.
  destruct kw as [|c kw]; [done|]. simpl in Hkw. injection Hkw as Hc _.
  rewrite app_cons. simpl. by apply Hg.
Qed.

(** On a guarded pattern the scan finds every match of the denotation. *)
Lemma captures_complete (re : list item) (s : string) (groups : list string) :
  guarded re → matches re s groups → captures re s = Some groups.
Proof.
  intros Hg Hm. induction Hm as [|pat re kw s groups Hkw Hm IH|cls re run s groups Hne Hall Hm IH].
  - done.
  - simpl. rewrite lit_complete by done. simpl. by apply IH.
  - simpl. rewrite plus_complete; [|done|done|by eapply guarded_starts_outside].
    simpl. rewrite IH by apply Hg. done.
Qed.

Lemma exec_matches (re : list item) (s : string) (m : list string) :
  guarded re → exec re s = Some m ↔ ∃ groups, m = s :: groups ∧ matches re s groups.
Proof.
  intros Hg. unfold exec. split.
  - destruct (captures re s) as [groups|] eqn:H; [|done]. intros [= <-].
    exists groups. split; [done|]. by apply captures_sound.
  - intros (groups & -> & Hm). by rewrite (captures_complete re s groups).
Qed.

End scanning.

Section characters.

Local Ltac each_code_unit c :=
  destruct c as [[] [] [] [] [] [] [] []]; vm_compute; try done.

Lemma canonicalize_space c : Js.canonicalize c = " "%char → c = " "%char.
Proof. each_code_unit c. Qed.

Lemma canonicalize_open c : Js.canonicalize c = "("%char → c = "("%char.
Proof. each_code_unit c. Qed.

Lemma canonicalize_close c : Js.canonicalize c = ")"%char → c = ")"%char.
Proof. each_code_unit c. Qed.

Lemma keyword_open kw : keyword " (" kw ↔ kw = " (".
Proof.
  unfold keyword. split; [|by intros ->].
  destruct kw as [|c1 [|c2 [|c3 kw]]]; try done. simpl. intros [= H1 H2].
  by rewrite (canonicalize_space _ H1), (canonicalize_open _ H2).
Qed.

Lemma keyword_close kw : keyword ")" kw ↔ kw = ")".
Proof.
  unfold keyword. split; [|by intros ->].
  destruct kw as [|c1 [|c2 kw]]; try done. simpl. intros [= H1].
  by rewrite (canonicalize_close _ H1).
Qed.

End characters.

Section shapes.

Import Regex.

Lemma guarded_selectAllRegex : guarded selectAllRegex.
Proof. by repeat split. Qed.

Lemma guarded_selectWhereRegex : guarded selectWhereRegex.
Proof.
  repeat split. intros c Hc. by rewrite (canonicalize_space c Hc).
Qed.

Lemma guarded_insertRegex : guarded insertRegex.
Proof.
  repeat split; intros c Hc.
  - by rewrite (canonicalize_space c Hc).
  - by rewrite (canonicalize_close c Hc).
  - by rewrite (canonicalize_close c Hc).
Qed.

Lemma matches_lit_inv pat re s groups :
  matches (Lit pat :: re) s groups →
  ∃ kw s', s = kw +:+ s' ∧ keyword pat kw ∧ matches re s' groups.
Proof. inversion 1; subst. eauto. Qed.

Lemma matches_group_inv cls re s groups :
  matches (Group cls :: re) s groups →
  ∃ run s' groups',
    s = run +:+ s' ∧ groups = run :: groups' ∧
    run ≠ "" ∧ str_all cls run = true ∧ matches re s' groups'.
Proof. inversion 1; subst. eauto 10. Qed.

Lemma matches_end_inv s groups : matches [] s groups → s = "" ∧ groups = [].
Proof. by inversion 1. Qed.

Lemma matches_select_all s groups :
  matches selectAllRegex s groups ↔
  ∃ table, groups = [table] ∧ select_all_shape s table.
Proof.
  unfold selectAllRegex, select_all_shape, word. split.
  - intros (kw & ? & -> & Hkw & H)%matches_lit_inv.
    apply matches_group_inv in H as (table & ? & ? & -> & -> & Hne & Hall & H).
    apply matches_end_inv in H as [-> ->]. rewrite app_empty_r.
    exists table. split; [done|]. by exists kw.
  - intros (table & -> & kw & -> & Hkw & Hne & Hall).
    rewrite <- (app_empty_r table) at 1.
    apply matches_lit; [done|]. apply matches_group; [done..|]. apply matches_end.
Qed.

Lemma matches_select_where s groups :
  matches selectWhereRegex s groups ↔
  ∃ table n, groups = [table; n] ∧ select_by_id_shape s table n.
Proof.
  unfold selectWhereRegex, select_by_id_shape, word, integer. split.
  - intros (kw1 & ? & -> & Hkw1 & H)%matches_lit_inv.
    apply matches_group_inv in H as (table & ? & ? & -> & -> & Hne & Hall & H).
    apply matches_lit_inv in H as (kw2 & ? & -> & Hkw2 & H).
    apply matches_group_inv in H as (n & ? & ? & -> & -> & Hne' & Hall' & H).
    apply matches_end_inv in H as [-> ->]. rewrite app_empty_r.
    exists table, n. split; [done|]. by exists kw1, kw2.
  - intros (table & n & -> & kw1 & kw2 & -> & Hkw1 & [Hne Hall] & Hkw2 & [Hne' Hall']).
    rewrite <- (app_empty_r n) at 1.
    apply matches_lit; [done|]. apply matches_group; [done..|].
    apply matches_lit; [done|]. apply matches_group; [done..|]. apply matches_end.
Qed.

Lemma matches_insert s groups :
  matches insertRegex s groups ↔
  ∃ table cols vals, groups = [table; cols; vals] ∧ insert_shape s table cols vals.
Proof.
  unfold insertRegex, insert_shape, word, item_list. split.
  - intros (kw1 & ? & -> & Hkw1 & H)%matches_lit_inv.
    apply matches_group_inv in H as (table & ? & ? & -> & -> & Hne & Hall & H).
    apply matches_lit_inv in H as (? & ? & -> & ->%keyword_open & H).
    apply matches_group_inv in H as (cols & ? & ? & -> & -> & Hne1 & Hall1 & H).
    apply matches_lit_inv in H as (kw2 & ? & -> & Hkw2 & H).
    apply matches_group_inv in H as (vals & ? & ? & -> & -> & Hne2 & Hall2 & H).
    apply matches_lit_inv in H as (? & ? & -> & ->%keyword_close & H).
    apply matches_end_inv in H as [-> ->].
    exists table, cols, vals. split; [done|]. by exists kw1, kw2.
  - intros (table & cols & vals & -> & kw1 & kw2 & -> & Hkw1 & [Hne Hall]
            & [Hne1 Hall1] & Hkw2 & [Hne2 Hall2]).
    apply matches_lit; [done|]. apply matches_group; [done..|].
    apply (matches_lit " (" _ " ("); [done|]. apply matches_group; [done..|].
    apply matches_lit; [done|]. apply matches_group; [done..|].
    apply (matches_lit ")" [] ")" ""); [done|]. apply matches_end.
Qed.

Lemma exec_select_all s m :
  exec selectAllRegex s = Some m ↔
  ∃ table, m = [s; table] ∧ select_all_shape s table.
Proof.
  rewrite (exec_matches _ _ _ guarded_selectAllRegex). split.
  - intros (groups & -> & (table & -> & H)%matches_select_all). by exists table.
  - intros (table & -> & H). exists [table]. split; [done|].
    apply matches_select_all. by exists table.
Qed.

Lemma exec_select_where s m :
  exec selectWhereRegex s = Some m ↔
  ∃ table n, m = [s; table; n] ∧ select_by_id_shape s table n.
Proof.
  rewrite (exec_matches _ _ _ guarded_selectWhereRegex). split.
  - intros (groups & -> & (table & n & -> & H)%matches_select_where).
    by exists table, n.
  - intros (table & n & -> & H). exists [table; n]. split; [done|].
    apply matches_select_where. by exists table, n.
Qed.

Lemma exec_insert s m :
  exec insertRegex s = Some m ↔
  ∃ table cols vals, m = [s; table; cols; vals] ∧ insert_shape s table cols vals.
Proof.
  rewrite (exec_matches _ _ _ guarded_insertRegex). split.
  - intros (groups & -> & (table & cols & vals & -> & H)%matches_insert).
    by exists table, cols, vals.
  - intros (table & cols & vals & -> & H). exists [table; cols; vals].
    split; [done|]. apply matches_insert. by exists table, cols, vals.
Qed.

End shapes.

Section parser.

Import Regex.

Lemma keyword_cons_inv p pat kw :
  keyword (String p pat) kw →
  ∃ c kw', kw = String c kw' ∧ Js.canonicalize c = Js.canonicalize p ∧ keyword pat kw'.
Proof.
  unfold keyword. destruct kw as [|c kw]; [done|]. simpl. intros [= Hc Hkw].
  by exists c, kw.
Qed.

Lemma lit_mismatch p pat p1 pat1 kw rest :
  keyword (String p1 pat1) kw →
  Js.canonicalize p ≠ Js.canonicalize p1 →
  lit (String p pat) (kw +:+ rest) = None.
Proof.
  intros (c & kw' & -> & Hc & _)%keyword_cons_inv Hne.
  rewrite app_cons. simpl. rewrite Hc. by rewrite decide_False.
Qed.

(** A statement of the second shape is not of the first. *)
Lemma by_id_not_select_all s table n :
  select_by_id_shape s table n → exec selectAllRegex s = None.
Proof.
  intros (kw1 & kw2 & -> & Hkw1 & [Hne Hall] & Hkw2 & _).
  apply keyword_cons_inv in Hkw2 as (c & kw2' & -> & Hc & _).
  apply canonicalize_space in Hc as ->.
  unfold exec, selectAllRegex. cbn [captures].
  rewrite lit_complete by done. cbn [mbind option_bind].
  rewrite plus_complete by done. done.
Qed.

(** A statement of the third shape is of neither of the first two. *)
Lemma insert_not_select s table cols vals :
  insert_shape s table cols vals →
  exec selectAllRegex s = None ∧ exec selectWhereRegex s = None.
Proof.
  intros (kw1 & kw2 & -> & Hkw1 & _).
  unfold exec, selectAllRegex, selectWhereRegex. cbn [captures].
  by rewrite (lit_mismatch _ _ _ _ _ _ Hkw1).
Qed.

(** [sqlParser] on a line that has been trimmed. *)
Lemma sqlParser_parses (sql : string) : parses (Js.trim sql) (sqlParser sql).
Proof.
  unfold sqlParser. cbv zeta. generalize (Js.trim sql). intros s.
  destruct (exec selectAllRegex s) as [m|] eqn:H1.
  { apply exec_select_all in H1 as (table & -> & Hshape).
    by apply parses_select_all. }
  destruct (exec selectWhereRegex s) as [m|] eqn:H2.
  { apply exec_select_where in H2 as (table & n & -> & Hshape).
    by apply parses_select_by_id. }
  destruct (exec insertRegex s) as [m|] eqn:H3.
  { apply exec_insert in H3 as (table & cols & vals & -> & Hshape).
    change ([s; table; cols; vals] !!! 1%nat) with table.
    change (Js.trim <$> Js.split "," ([s; table; cols; vals] !!! 2%nat))
      with (items cols).
    change (Js.trim <$> Js.split "," ([s; table; cols; vals] !!! 3%nat))
      with (items vals).
    case_decide as Hlen.
    - by eapply parses_mismatch.
    - apply parses_insert; [done|].
      by destruct (decide (length (items cols) = length (items vals))). }
  apply parses_unsupported.
  - intros table Hshape.
    assert (exec selectAllRegex s = Some [s; table]) as H
      by (apply exec_select_all; eauto).
    congruence.
  - intros table n Hshape.
    assert (exec selectWhereRegex s = Some [s; table; n]) as H
      by (apply exec_select_where; eauto).
    congruence.
  - intros table cols vals Hshape.
    assert (exec insertRegex s = Some [s; table; cols; vals]) as H
      by (apply exec_insert; eauto 10).
    congruence.
Qed.

(** The specification leaves the parser no choice. *)
Lemma parses_sqlParser (sql : string) (r : result parsedCommand) :
  parses (Js.trim sql) r → r = sqlParser sql.
Proof.
  unfold sqlParser. cbv zeta. generalize (Js.trim sql). intros s Hp.
  destruct Hp as [table Hshape|table n Hshape|table cols vals Hshape Hlen
                  |table cols vals Hshape Hlen|Hno1 Hno2 Hno3].
  - assert (exec selectAllRegex s = Some [s; table]) as ->
      by (apply exec_select_all; eauto).
    done.
  - rewrite (by_id_not_select_all _ _ _ Hshape).
    assert (exec selectWhereRegex s = Some [s; table; n]) as ->
      by (apply exec_select_where; eauto).
    done.
  - destruct (insert_not_select _ _ _ _ Hshape) as [-> ->].
    assert (exec insertRegex s = Some [s; table; cols; vals]) as ->
      by (apply exec_insert; eauto 10).
    change ([s; table; cols; vals] !!! 1%nat) with table.
    change (Js.trim <$> Js.split "," ([s; table; cols; vals] !!! 2%nat))
      with (items cols).
    change (Js.trim <$> Js.split "," ([s; table; cols; vals] !!! 3%nat))
      with (items vals).
    by rewrite decide_False by (by intros ?).
  - destruct (insert_not_select _ _ _ _ Hshape) as [-> ->].
    assert (exec insertRegex s = Some [s; table; cols; vals]) as ->
      by (apply exec_insert; eauto 10).
    change (Js.trim <$> Js.split "," ([s; table; cols; vals] !!! 2%nat))
      with (items cols).
    change (Js.trim <$> Js.split "," ([s; table; cols; vals] !!! 3%nat))
      with (items vals).
    by rewrite decide_True.
  - destruct (exec selectAllRegex s) as [m|] eqn:H1.
    { apply exec_select_all in H1 as (table & -> & Hshape). by destruct (Hno1 table). }
    destruct (exec selectWhereRegex s) as [m|] eqn:H2.
    { apply exec_select_where in H2 as (table & n & -> & Hshape).
      by destruct (Hno2 table n). }
    destruct (exec insertRegex s) as [m|] eqn:H3; [|done].
    apply exec_insert in H3 as (table & cols & vals & -> & Hshape).
    by destruct (Hno3 table cols vals).
Qed.

End parser.

(** ** [trim], [split], [parseInt] and the bag *)

Section builtins.

Lemma trimStart_spec (s : string) :
  ∃ l, s = l +:+ Js.trimStart s ∧
       str_all Js.is_white_space l = true ∧
       starts_outside Js.is_white_space (Js.trimStart s).
Proof.
  induction s as [|c s (l & Hs & Hl & Hout)]; [by exists ""|].
  simpl. destruct (Js.is_white_space c) eqn:Hc.
  - exists (String c l). rewrite app_cons, <- Hs. simpl. by rewrite Hc.
  - by exists "".
Qed.

Lemma trimEnd_spec (s : string) :
  ∃ r, s = Js.trimEnd s +:+ r ∧
       str_all Js.is_white_space r = true ∧
       ends_outside Js.is_white_space (Js.trimEnd s).
Proof.
  induction s as [|c s (r & Hs & Hr & Hout)]; [by exists ""|].
  simpl. destruct (Js.trimEnd s) as [|c' t] eqn:Ht.
  - rewrite app_nil_l_string in Hs. subst r.
    destruct (Js.is_white_space c) eqn:Hc.
    + exists (String c s). simpl. by rewrite Hc.
    + by exists s.
  - exists r. rewrite app_cons, <- Hs. done.
Qed.

Lemma trimEnd_starts_outside (cls : ascii → bool) (s : string) :
  starts_outside cls s → starts_outside cls (Js.trimEnd s).
Proof.
  destruct s as [|c s]; [done|]. simpl.
  destruct (Js.trimEnd s); [|done]. by destruct (Js.is_white_space c).
Qed.

Lemma trim_trimmed (s : string) : trimmed s (Js.trim s).
Proof.
  unfold Js.trim. destruct (trimStart_spec s) as (l & Hs & Hl & Hout).
  destruct (trimEnd_spec (Js.trimStart s)) as (r & Ht & Hr & Hend).
  exists l, r. split; [by rewrite <- Ht|].
  split; [done|]. split; [done|]. split; [|done].
  by apply trimEnd_starts_outside.
Qed.

Lemma trimStart_white (l s : string) :
  str_all Js.is_white_space l = true → Js.trimStart (l +:+ s) = Js.trimStart s.
Proof.
  induction l as [|c l IH]; [done|]. simpl.
  intros [Hc Hl]%andb_true_iff. rewrite ?app_cons. simpl. rewrite Hc. auto.
Qed.

Lemma trimStart_outside (s : string) :
  starts_outside Js.is_white_space s → Js.trimStart s = s.
Proof. destruct s as [|c s]; [done|]. simpl. by intros ->. Qed.

Lemma trimEnd_white (r : string) :
  str_all Js.is_white_space r = true → Js.trimEnd r = "".
Proof.
  induction r as [|c r IH]; [done|]. simpl.
  intros [Hc Hr]%andb_true_iff. by rewrite IH, Hc.
Qed.

Lemma trimEnd_outside (core r : string) :
  ends_outside Js.is_white_space core →
  str_all Js.is_white_space r = true →
  Js.trimEnd (core +:+ r) = core.
Proof.
  intros Hend Hr. induction core as [|c core IH].
  - by apply trimEnd_white.
  - rewrite app_cons. simpl. destruct core as [|c' core].
    + rewrite app_nil_l_string, trimEnd_white by done. simpl in Hend. by rewrite Hend.
    + rewrite IH by done. done.
Qed.

(** Trimming has one outcome, the one [trim] computes. *)
Lemma trimmed_trim (s core : string) : trimmed s core → Js.trim s = core.
Proof.
  intros (l & r & -> & Hl & Hr & Hout & Hend). unfold Js.trim.
  rewrite trimStart_white by done. destruct core as [|c core].
  - rewrite app_nil_l_string.
    destruct (trimStart_spec r) as (l' & Hs & _ & _).
    assert (str_all Js.is_white_space (Js.trimStart r) = true) as Hw.
    { clear -Hr. induction r as [|c r IH]; [done|]. simpl in *.
      apply andb_true_iff in Hr as [Hc Hr]. rewrite Hc. auto. }
    by apply trimEnd_white.
  - rewrite trimStart_outside by (by rewrite app_cons).
    by apply trimEnd_outside.
Qed.

Lemma split_cons (sep : ascii) (s : string) :
  ∃ piece pieces, Js.split sep s = piece :: pieces.
Proof.
  destruct s as [|c s]; [by eexists _, _|]. simpl.
  case_decide; [by eexists _, _|]. destruct (Js.split sep s); by eexists _, _.
Qed.

(** The pieces of [split], joined by the separator, are the string. *)
Lemma split_join (sep : ascii) (s : string) :
  String.concat (String sep "") (Js.split sep s) = s.
Proof.
  induction s as [|c s IH]; [done|]. simpl.
  destruct (split_cons sep s) as (piece & pieces & Hs). rewrite Hs in *.
  case_decide as Hc.
  - subst c. simpl in *. by rewrite IH.
  - simpl in *. destruct pieces; simpl in *; by rewrite <- IH.
Qed.

Lemma split_no_sep (sep : ascii) (s piece : string) :
  piece ∈ Js.split sep s → str_all (λ c, bool_decide (c ≠ sep)) piece = true.
Proof.
  revert piece. induction s as [|c s IH]; intros piece Hin.
  - by apply list_elem_of_singleton in Hin as ->.
  - simpl in Hin. case_decide as Hc.
    + apply elem_of_cons in Hin as [->|Hin]; [done|]. by apply IH.
    + destruct (Js.split sep s) as [|piece' pieces] eqn:Hs.
      { apply list_elem_of_singleton in Hin as ->. simpl.
        by rewrite bool_decide_eq_true_2. }
      apply elem_of_cons in Hin as [->|Hin].
      * simpl. rewrite bool_decide_eq_true_2 by done. apply IH. by left.
      * apply IH. by right.
Qed.

Lemma parseInt_from_app (acc : Z) (s1 s2 : string) :
  Js.parseInt_from acc (s1 +:+ s2) = Js.parseInt_from (Js.parseInt_from acc s1) s2.
Proof.
  revert acc. induction s1 as [|c s1 IH]; intros acc; [done|].
  rewrite app_cons. simpl. apply IH.
Qed.

(** Decimal notation: a further digit multiplies by ten and adds. *)
Lemma parseInt_snoc (s : string) (c : ascii) :
  Js.parseInt (s +:+ String c "") = 10 * Js.parseInt s + Js.digit_value c.
Proof. unfold Js.parseInt. by rewrite parseInt_from_app. Qed.

Lemma foldl_insert_lookup_last (l : list (string * string))
    (m : gmap string string) (k v : string) :
  k ∉ l.*1 →
  foldl (λ data cv, set_property data cv.1 cv.2) (<[k := v]> m) l !! k = Some v.
Proof.
  intros Hk. rewrite foldl_insert_lookup_notin by done. apply lookup_insert_eq.
Qed.

(** Columns and values are paired by position. *)
Lemma assign_columns_paired (columns values : list string) (i : nat) (c v : string) :
  NoDup columns → c ≠ "__proto__" →
  columns !! i = Some c → values !! i = Some v →
  assign_columns columns values !! c = Some v.
Proof.
  unfold assign_columns. generalize (∅ : gmap string string).
  revert values i. induction columns as [|c0 columns IH];
    intros values i m Hnd Hproto Hc Hv; [done|].
  destruct values as [|v0 values]; [done|].
  apply NoDup_cons in Hnd as [Hc0 Hnd]. destruct i as [|i]; simpl in *.
  - injection Hc as ->. injection Hv as ->.
    unfold set_property at 2. rewrite decide_False by done.
    apply foldl_insert_lookup_last.
    intros Hin. apply list_elem_of_fmap in Hin as ([c' v'] & -> & Hin).
    by apply elem_of_zip_l in Hin.
  - by eapply IH.
Qed.

End builtins.

(** ** The grammar and the code *)

Section grammar_facts.

Lemma digit_value_digit (c : ascii) :
  Js.is_digit c = true → Js.digit_value c = digit c.
Proof. destruct c as [[] [] [] [] [] [] [] []]; by vm_compute. Qed.

Lemma parseInt_from_decimal (acc : Z) (n : string) :
  str_all Js.is_digit n = true →
  Js.parseInt_from acc n = acc * 10 ^ Z.of_nat (String.length n) + decimal n.
Proof.
  revert acc. induction n as [|c n IH]; intros acc Hn.
  - cbn. lia.
  - cbn [str_all] in Hn. apply andb_true_iff in Hn as [Hc Hn].
    cbn [Js.parseInt_from decimal String.length]. rewrite IH by done.
    rewrite (digit_value_digit c Hc), Nat2Z.inj_succ, Z.pow_succ_r by lia. lia.
Qed.

(** [parseInt] reads decimal notation. *)
Lemma parseInt_decimal (n : string) : integer n → Js.parseInt n = decimal n.
Proof.
  intros [_ Hn]. unfold Js.parseInt. rewrite parseInt_from_decimal by done. lia.
Qed.

Lemma set_property_delete (m : gmap string string) (k v : string) :
  set_property (delete "__proto__" m) k v = delete "__proto__" (<[k := v]> m).
Proof.
  unfold set_property. case_decide as Hk.
  - subst k. by rewrite delete_insert_eq.
  - by rewrite delete_insert_ne.
Qed.

(** The assignments of [sqlParser] build the field mapping. *)
Lemma assign_columns_fields_of (columns values : list string) :
  assign_columns columns values = fields_of columns values.
Proof.
  unfold assign_columns, fields_of.
  induction (zip columns values) as [|cv l IH] using rev_ind.
  - cbn. by rewrite delete_empty.
  - rewrite foldl_app, reverse_app. cbn [foldl reverse app].
    rewrite IH. rewrite reverse_singleton. cbn [app list_to_map].
    destruct cv as [k v]. apply set_property_delete.
Qed.

Lemma split_no_comma (sep : ascii) (piece : string) :
  count_char sep piece = 0%nat → Js.split sep piece = [piece].
Proof.
  induction piece as [|c piece IH]; [done|]. cbn [count_char Js.split].
  case_decide; [done|]. intros Hn. by rewrite IH.
Qed.

Lemma split_piece (sep : ascii) (piece rest : string) :
  count_char sep piece = 0%nat →
  Js.split sep (piece +:+ String sep rest) = piece :: Js.split sep rest.
Proof.
  induction piece as [|c piece IH].
  - intros _. change ("" +:+ String sep rest) with (String sep rest).
    cbn [Js.split]. by case_decide.
  - cbn [count_char]. rewrite app_cons. cbn [Js.split].
    case_decide; [done|]. intros Hn. by rewrite IH.
Qed.

(** [split] undoes the joining of pieces that hold no separator. *)
Lemma split_concat (sep : ascii) (pieces : list string) :
  pieces ≠ [] →
  Forall (λ piece, count_char sep piece = 0%nat) pieces →
  Js.split sep (String.concat (String sep "") pieces) = pieces.
Proof.
  induction pieces as [|piece pieces IH]; [done|]. intros _ Hall.
  apply Forall_cons in Hall as [Hp Hall].
  destruct pieces as [|piece' pieces].
  - by apply split_no_comma.
  - change (String.concat (String sep "") (piece :: piece' :: pieces))
      with (piece +:+ String sep (String.concat (String sep "") (piece' :: pieces))).
    rewrite split_piece by done. by rewrite IH.
Qed.

Lemma count_char_no_sep (sep : ascii) (piece : string) :
  str_all (λ c, bool_decide (c ≠ sep)) piece = true → count_char sep piece = 0%nat.
Proof.
  induction piece as [|c piece IH]; [done|]. cbn [str_all count_char].
  intros [Hc Hp]%andb_true_iff. apply bool_decide_eq_true in Hc.
  rewrite decide_False by done. by rewrite IH.
Qed.

(** The items of the grammar are the items the code computes. *)
Lemma list_items_items (l : string) : list_items l (items l).
Proof.
  exists (Js.split "," l). split; [split; [|split]|].
  - destruct (split_cons "," l) as (piece & pieces & ->). done.
  - symmetry. apply split_join.
  - apply Forall_forall. intros piece Hin.
    apply count_char_no_sep. by apply (split_no_sep _ l).
  - unfold items. apply Forall2_fmap_r, Forall_Forall2_diag, Forall_forall.
    intros piece _. apply trim_trimmed.
Qed.

Lemma list_items_unique (l : string) (its : list string) :
  list_items l its → its = items l.
Proof.
  intros (pieces & (Hne & -> & Hall) & Htrim). unfold items.
  rewrite split_concat by done. clear Hne Hall.
  induction Htrim as [|piece it pieces its Hp _ IH]; [done|].
  rewrite fmap_cons, (trimmed_trim _ _ Hp). by f_equal.
Qed.

Lemma parses_grammar (s : string) (r : result parsedCommand) :
  parses s r → grammar s r.
Proof.
  intros [table Hs|table n Hs|table cols vals Hs Hlen|table cols vals Hs Hlen|H1 H2 H3].
  - by apply grammar_select_all.
  - rewrite parseInt_decimal; [by apply grammar_select_by_id|].
    by destruct Hs as (kw1 & kw2 & _ & _ & _ & _ & Hn).
  - rewrite assign_columns_fields_of.
    by apply (grammar_insert s table cols vals); try apply list_items_items.
  - by apply (grammar_mismatch s table cols vals (items cols) (items vals));
      try apply list_items_items.
  - by apply grammar_unsupported.
Qed.

Lemma grammar_parses (s : string) (r : result parsedCommand) :
  grammar s r → parses s r.
Proof.
  intros [table Hs|table n Hs|table cols vals columns values Hs Hc Hv Hlen
         |table cols vals columns values Hs Hc Hv Hlen|H1 H2 H3].
  - by apply parses_select_all.
  - rewrite <- parseInt_decimal; [by apply parses_select_by_id|].
    by destruct Hs as (kw1 & kw2 & _ & _ & _ & _ & Hn).
  - apply list_items_unique in Hc as ->. apply list_items_unique in Hv as ->.
    rewrite <- assign_columns_fields_of. by apply parses_insert.
  - apply list_items_unique in Hc as ->. apply list_items_unique in Hv as ->.
    by apply (parses_mismatch s table cols vals).
  - by apply parses_unsupported.
Qed.

Lemma keyword_length (pat kw : string) :
  keyword pat kw → String.length kw = String.length pat.
Proof.
  unfold keyword. revert pat. induction kw as [|c kw IH]; intros [|p pat] Hk;
    try done.
  cbn in Hk. injection Hk as _ Hk. cbn. f_equal. by apply IH.
Qed.

(** The digit run of a SELECT by id is shorter than the line. *)
Lemma by_id_length (s table n : string) :
  select_by_id_shape s table n →
  String.length s = (26 + String.length table + String.length n)%nat.
Proof.
  intros (kw1 & kw2 & -> & Hkw1 & _ & Hkw2 & _).
  rewrite !length_append, (keyword_length _ _ Hkw1), (keyword_length _ _ Hkw2).
  cbn. lia.
Qed.

End grammar_facts.

(** C5, as stated, fails.  The two failures do not carry the messages the
    claim names, and the handler reports neither of them: the client is
    told [Invalid SQL command] in both cases.  And a line of the INSERT
    shape does not always yield the command with its columns paired with
    its values: the column [__proto__] is dropped from the bag. *)
Lemma sqlParser_other_messages :
  sqlParser "INSERT INTO spells (name, description) VALUES (Fireball)"
    = Throw "Column and value count mismatch in INSERT statement" ∧
  sqlParser "INSERT INTO spells (name, description) VALUES (Fireball)"
    ≠ Throw "column/value count mismatch" ∧
  sqlParser "DROP TABLE spells" = Throw "Unsupported SQL command format" ∧
  sqlParser "DROP TABLE spells" ≠ Throw "unsupported command" ∧
  (on_data empty_disk "INSERT INTO spells (name, description) VALUES (Fireball)").2
    = Error "Invalid SQL command" ∧
  (on_data empty_disk "DROP TABLE spells").2 = Error "Invalid SQL command" ∧
  sqlParser "INSERT INTO spells (__proto__) VALUES (x)" = Ok (INSERT "spells" ∅).
Proof. repeat split; by vm_compute. Qed.

(** C5, amended.  Every line has exactly one trimmed core.  When no digit
    run that the core can have as the id of a SELECT by id is longer than
    15 digits, [sqlParser] does on the line what the grammar says of the
    core, and nothing else is allowed: a core of one of the three shapes
    gives the command of that shape, with the table, the number the
    digits denote, and the mapping of the trimmed columns to the trimmed
    values at the same place, the last one for a column named twice and
    none for [__proto__]; an INSERT whose two lists differ in length
    throws [Column and value count mismatch in INSERT statement]; a core
    of no shape throws [Unsupported SQL command format]. *)
Theorem sqlParser_total (sql : string) :
  (∃ core, trimmed sql core) ∧
  ∀ core, trimmed sql core →
    (∀ table n, select_by_id_shape core table n → short n) →
    grammar core (sqlParser sql) ∧
    ∀ r, grammar core r → r = sqlParser sql.
Proof.
  split; [exists (Js.trim sql); apply trim_trimmed|].
  intros core <-%trimmed_trim _. split.
  - apply parses_grammar, sqlParser_parses.
  - intros r Hr. by apply parses_sqlParser, grammar_parses.
Qed.

Lemma sqlParser_total_witness :
  let sql := "  select * from spells where id = 042 " in
  let core := "select * from spells where id = 042" in
  trimmed sql core ∧
  (∀ table n, select_by_id_shape core table n → short n) ∧
  sqlParser sql = Ok (SELECT "spells" (Some 42)) ∧
  grammar core (sqlParser sql) ∧
  ∀ r, grammar core r → r = sqlParser sql.
Proof.
  intros sql core.
  assert (trimmed sql core) as Htrim.
  { exists "  ", " ". repeat split. }
  assert (∀ table n, select_by_id_shape core table n → short n) as Hshort.
  { intros table n Hs%by_id_length. unfold short. cbn in Hs. lia. }
  split; [exact Htrim|]. split; [exact Hshort|]. split; [by vm_compute|].
  exact (proj2 (sqlParser_total sql) core Htrim Hshort).
Defined.

(** * Further properties of the parser *)

Section parser_more.

Import Regex.

Lemma trim_idemp (s : string) : Js.trim (Js.trim s) = Js.trim s.
Proof.
  apply trimmed_trim. destruct (trim_trimmed s) as (_ & _ & _ & _ & _ & Hout & Hend).
  exists "", "". by rewrite app_empty_r.
Qed.

Lemma sqlParser_trim (s : string) : sqlParser (Js.trim s) = sqlParser s.
Proof. unfold sqlParser. by rewrite trim_idemp. Qed.

Lemma parseInt_from_nonneg (acc : Z) (n : string) :
  0 ≤ acc → str_all Js.is_digit n = true → acc ≤ Js.parseInt_from acc n.
Proof.
  revert acc. induction n as [|c n IH]; intros acc Hacc Hn; cbn [Js.parseInt_from]; [lia|].
  cbn [str_all] in Hn. apply andb_true_iff in Hn as [Hc Hn].
  assert (0 ≤ Js.digit_value c) as Hd.
  { unfold Js.is_digit in Hc. unfold Js.digit_value.
    apply andb_true_iff in Hc as [Hc _]. apply N.leb_le in Hc.
    lia. }
  specialize (IH (10 * acc + Js.digit_value c) ltac:(lia) Hn). lia.
Qed.

Lemma length_split (sep : ascii) (s : string) :
  length (Js.split sep s) = S (count_char sep s).
Proof.
  induction s as [|c s IH]; [done|]. simpl.
  destruct (split_cons sep s) as (piece & pieces & Hs). rewrite Hs in *.
  case_decide; simpl in *; lia.
Qed.

Lemma length_items (l : string) : length (items l) = S (count_char "," l).
Proof. unfold items. by rewrite length_fmap, length_split. Qed.

Lemma count_char_app (c : ascii) (s1 s2 : string) :
  count_char c (s1 +:+ s2) = (count_char c s1 + count_char c s2)%nat.
Proof.
  induction s1 as [|c1 s1 IH]; [done|]. rewrite app_cons.
  cbn [count_char]. rewrite IH. lia.
Qed.

Lemma count_char_outside (cls : ascii → bool) (c : ascii) (s : string) :
  cls c = false → str_all cls s = true → count_char c s = 0%nat.
Proof.
  intros Hc. induction s as [|c1 s IH]; [done|]. cbn [str_all count_char].
  intros [Hc1 Hs]%andb_true_iff. rewrite IH by done.
  case_decide; [|done]. subst. congruence.
Qed.

End parser_more.

(** X1.  Trimming twice is trimming once, so the handler, which trims the
    input before it calls [sqlParser], gets the same result as
    [sqlParser] on the raw input. *)
Theorem sqlParser_ignores_outer_space (s : string) :
  Js.trim (Js.trim s) = Js.trim s ∧
  sqlParser (Js.trim s) = sqlParser s ∧
  ∀ l r, str_all Js.is_white_space l = true → str_all Js.is_white_space r = true →
    sqlParser (l +:+ s +:+ r) = sqlParser s.
Proof.
  split; [apply trim_idemp|]. split; [apply sqlParser_trim|].
  intros l r Hl Hr. unfold sqlParser. cbv zeta.
  replace (Js.trim (l +:+ s +:+ r)) with (Js.trim s); [done|].
  symmetry. apply trimmed_trim.
  destruct (trim_trimmed s) as (l' & r' & Hs & Hl' & Hr' & Hout & Hend).
  exists (l +:+ l'), (r' +:+ r). split.
  { rewrite Hs at 1. by rewrite !app_assoc_string. }
  assert (∀ a b, str_all Js.is_white_space a = true →
                 str_all Js.is_white_space b = true →
                 str_all Js.is_white_space (a +:+ b) = true) as Happ.
  { intros a b Ha Hb. induction a as [|c a IH]; [done|].
    simpl in Ha. apply andb_true_iff in Ha as [Hc Ha].
    rewrite app_cons. simpl. rewrite Hc. auto. }
  auto.
Qed.

Lemma sqlParser_ignores_outer_space_witness :
  str_all Js.is_white_space "  " = true ∧
  str_all Js.is_white_space "   " = true ∧
  sqlParser ("  " +:+ "SELECT * FROM spells" +:+ "   ") = sqlParser "SELECT * FROM spells".
Proof.
  split; [reflexivity|]. split; [reflexivity|].
  exact (proj2 (proj2 (sqlParser_ignores_outer_space "SELECT * FROM spells"))
           "  " "   " eq_refl eq_refl).
Defined.

(** X2.  Whatever the input, the table of a command that [sqlParser]
    returns is a non-empty run of letters, digits and underscores, so the
    path of its file has no separator and no dot but those of
    [data/] and [.txt]: the file is directly inside the data directory.
    The id of a SELECT by id is never negative. *)
Theorem parsed_table_is_word (sql : string) (c : parsedCommand) :
  sqlParser sql = Ok c →
  word (table_of c) ∧
  count_char "/" (dataFilePath (table_of c)) = 1%nat ∧
  count_char "." (dataFilePath (table_of c)) = 1%nat ∧
  ∀ table k, c = SELECT table (Some k) → 0 ≤ k.
Proof.
  intros Hc. pose proof (sqlParser_parses sql) as Hp. rewrite Hc in Hp.
  assert (word (table_of c) → word (table_of c) ∧
          count_char "/" (dataFilePath (table_of c)) = 1%nat ∧
          count_char "." (dataFilePath (table_of c)) = 1%nat) as Hpath.
  { intros Hw. split; [done|]. destruct Hw as [_ Hw]. unfold dataFilePath.
    rewrite !count_char_app.
    rewrite (count_char_outside Js.is_word "/" (table_of c)) by done.
    by rewrite (count_char_outside Js.is_word "." (table_of c)) by done. }
  inversion Hp as [table Hshape|table n Hshape|table cols vals Hshape Hlen| |];
    subst; cbn [table_of] in *.
  - destruct Hshape as (kw & _ & _ & Hw).
    destruct (Hpath Hw) as (? & ? & ?). do 3 (split; [done|]). by intros ? ? [=].
  - destruct Hshape as (kw1 & kw2 & _ & _ & Hw & _ & [_ Hn]).
    destruct (Hpath Hw) as (? & ? & ?). do 3 (split; [done|]).
    intros ? k [= _ <-]. by apply (parseInt_from_nonneg 0).
  - destruct Hshape as (kw1 & kw2 & _ & _ & Hw & _).
    destruct (Hpath Hw) as (? & ? & ?). do 3 (split; [done|]). by intros ? ? [=].
Qed.

Lemma parsed_table_is_word_witness :
  sqlParser "select * from spells_2 where id = 007" = Ok (SELECT "spells_2" (Some 7)) ∧
  word "spells_2" ∧
  count_char "/" (dataFilePath "spells_2") = 1%nat ∧
  count_char "." (dataFilePath "spells_2") = 1%nat ∧
  0 ≤ 7.
Proof.
  assert (sqlParser "select * from spells_2 where id = 007"
            = Ok (SELECT "spells_2" (Some 7))) as H by (by vm_compute).
  split; [exact H|].
  destruct (parsed_table_is_word _ _ H) as (Hw & Hs & Hd & Hk).
  split; [exact Hw|]. split; [exact Hs|]. split; [exact Hd|].
  exact (Hk "spells_2" 7 eq_refl).
Defined.

(** X3.  No input matches two of the three patterns, so the order in
    which [sqlParser] tries them decides nothing. *)
Theorem patterns_disjoint (s : string) :
  (is_Some (Regex.exec Regex.selectAllRegex s) →
     Regex.exec Regex.selectWhereRegex s = None ∧
     Regex.exec Regex.insertRegex s = None) ∧
  (is_Some (Regex.exec Regex.selectWhereRegex s) →
     Regex.exec Regex.selectAllRegex s = None ∧
     Regex.exec Regex.insertRegex s = None) ∧
  (is_Some (Regex.exec Regex.insertRegex s) →
     Regex.exec Regex.selectAllRegex s = None ∧
     Regex.exec Regex.selectWhereRegex s = None).
Proof.
  assert (∀ m, Regex.exec Regex.selectWhereRegex s = Some m →
               Regex.exec Regex.selectAllRegex s = None) as H21.
  { intros m (table & n & _ & Hshape)%exec_select_where.
    by eapply by_id_not_select_all. }
  assert (∀ m, Regex.exec Regex.insertRegex s = Some m →
               Regex.exec Regex.selectAllRegex s = None ∧
               Regex.exec Regex.selectWhereRegex s = None) as H3.
  { intros m (table & cols & vals & _ & Hshape)%exec_insert.
    by eapply insert_not_select. }
  split; [|split].
  - intros [m Hm]. split.
    + destruct (Regex.exec Regex.selectWhereRegex s) as [m'|] eqn:H'; [|done].
      rewrite (H21 m' eq_refl) in Hm. done.
    + destruct (Regex.exec Regex.insertRegex s) as [m'|] eqn:H'; [|done].
      destruct (H3 m' eq_refl) as [H0 _]. rewrite H0 in Hm. done.
  - intros [m Hm]. split; [by eapply H21|].
    destruct (Regex.exec Regex.insertRegex s) as [m'|] eqn:H'; [|done].
    destruct (H3 m' eq_refl) as [_ H0]. rewrite H0 in Hm. done.
  - intros [m Hm]. by eapply H3.
Qed.

Lemma patterns_disjoint_witness :
  is_Some (Regex.exec Regex.selectWhereRegex "SELECT * FROM spells WHERE id = 1") ∧
  Regex.exec Regex.selectAllRegex "SELECT * FROM spells WHERE id = 1" = None ∧
  Regex.exec Regex.insertRegex "SELECT * FROM spells WHERE id = 1" = None.
Proof.
  assert (is_Some (Regex.exec Regex.selectWhereRegex "SELECT * FROM spells WHERE id = 1"))
    as H by (vm_compute; eauto).
  split; [exact H|].
  exact (proj1 (proj2 (patterns_disjoint "SELECT * FROM spells WHERE id = 1")) H).
Defined.

(** X4.  An INSERT statement is accepted exactly when its two lists hold
    the same number of commas: a value with a comma in it counts as two
    values.  The lists are never empty, the first item is always there. *)
Theorem insert_accepted_iff_same_commas (sql table cols vals : string) :
  insert_shape (Js.trim sql) table cols vals →
  length (items cols) = S (count_char "," cols) ∧
  (count_char "," cols = count_char "," vals →
     sqlParser sql = Ok (INSERT table (assign_columns (items cols) (items vals)))) ∧
  (count_char "," cols ≠ count_char "," vals →
     sqlParser sql = Throw "Column and value count mismatch in INSERT statement").
Proof.
  intros Hshape. split; [apply length_items|]. split; intros Hn; symmetry.
  - apply parses_sqlParser. apply parses_insert; [done|].
    rewrite !length_items. by rewrite Hn.
  - apply parses_sqlParser. eapply parses_mismatch; [done|].
    rewrite !length_items. lia.
Qed.

Lemma insert_accepted_iff_same_commas_witness :
  let sql := "INSERT INTO spells (name, description) VALUES (Fireball, Deals damage, a lot)" in
  insert_shape (Js.trim sql) "spells" "name, description" "Fireball, Deals damage, a lot" ∧
  count_char "," "name, description" ≠ count_char "," "Fireball, Deals damage, a lot" ∧
  sqlParser sql = Throw "Column and value count mismatch in INSERT statement".
Proof.
  intros sql.
  assert (insert_shape (Js.trim sql) "spells" "name, description"
            "Fireball, Deals damage, a lot") as Hshape.
  { exists "INSERT INTO ", ") VALUES (". repeat split; done. }
  assert (count_char "," "name, description"
            ≠ count_char "," "Fireball, Deals damage, a lot") as Hn
    by (vm_compute; discriminate).
  split; [exact Hshape|]. split; [exact Hn|].
  exact (proj2 (proj2 (insert_accepted_iff_same_commas _ _ _ _ Hshape)) Hn).
Defined.

(** X5.  When a column is named more than once, the bag holds the value
    paired with its last occurrence.  The column [__proto__] is the
    exception: the assignment to it is ignored and the bag never holds
    it. *)
Theorem last_column_wins (columns values : list string) (i : nat) (k v : string) :
  (k ≠ "__proto__" →
   columns !! i = Some k →
   values !! i = Some v →
   (∀ j, (i < j)%nat → columns !! j ≠ Some k) →
   assign_columns columns values !! k = Some v) ∧
  assign_columns columns values !! "__proto__" = None.
Proof.
  split; [|apply assign_columns_proto].
  intros Hproto. unfold assign_columns. generalize (∅ : gmap string string).
  revert values i. induction columns as [|c0 columns IH];
    intros values i m Hc Hv Hlast; [done|].
  destruct values as [|v0 values]; [done|].
  destruct i as [|i]; simpl in *.
  - injection Hc as ->. injection Hv as ->.
    unfold set_property at 2. rewrite decide_False by done.
    apply foldl_insert_lookup_last.
    intros Hin. apply list_elem_of_fmap in Hin as ([c' v'] & -> & Hin).
    apply elem_of_zip_l in Hin. simpl in Hin.
    apply list_elem_of_lookup in Hin as [j Hj].
    by apply (Hlast (S j)); [lia|].
  - apply (IH values i); [done..|].
    intros j Hj. apply (Hlast (S j)). lia.
Qed.

Lemma last_column_wins_witness :
  let columns := ["name"; "description"; "name"] in
  let values := ["Fireball"; "Burns"; "Frost"] in
  "name" ≠ "__proto__" ∧
  columns !! 2%nat = Some "name" ∧
  values !! 2%nat = Some "Frost" ∧
  (∀ j, (2 < j)%nat → columns !! j ≠ Some "name") ∧
  assign_columns columns values !! "name" = Some "Frost".
Proof.
  intros columns values.
  assert ("name" ≠ "__proto__") as Hproto by discriminate.
  assert (∀ j, (2 < j)%nat → columns !! j ≠ Some "name") as Hlast.
  { intros [|[|[|j]]] Hj; [lia..|done]. }
  split; [exact Hproto|].
  split; [reflexivity|]. split; [reflexivity|]. split; [exact Hlast|].
  exact (proj1 (last_column_wins columns values 2 "name" "Frost")
           Hproto eq_refl eq_refl Hlast).
Defined.

Section bag_more.

Lemma foldl_insert_lookup_Some (l : list (string * string))
    (m : gmap string string) (k v : string) :
  foldl (λ data cv, set_property data cv.1 cv.2) m l !! k = Some v →
  m !! k = Some v ∨ (k, v) ∈ l.
Proof.
  revert m. induction l as [|[c x] l IH]; intros m H; [by left|].
  simpl in H. apply IH in H as [H|H]; [|right; by right].
  unfold set_property in H. case_decide; [by left|].
  apply lookup_insert_Some in H as [[-> ->]|[_ H]]; [right; by left|by left].
Qed.

(** What the bag holds came from the two lists. *)
Lemma assign_columns_lookup_Some (columns values : list string) (k v : string) :
  assign_columns columns values !! k = Some v → k ∈ columns ∧ v ∈ values.
Proof.
  unfold assign_columns. intros [H|H]%foldl_insert_lookup_Some; [done|].
  split; [by eapply elem_of_zip_l|by eapply elem_of_zip_r].
Qed.

Lemma str_all_app (cls : ascii → bool) (s1 s2 : string) :
  str_all cls (s1 +:+ s2) = str_all cls s1 && str_all cls s2.
Proof.
  induction s1 as [|c s1 IH]; [done|]. rewrite app_cons. cbn [str_all].
  by rewrite IH, andb_assoc.
Qed.

Lemma split_str_all (cls : ascii → bool) (sep : ascii) (s piece : string) :
  str_all cls s = true → piece ∈ Js.split sep s → str_all cls piece = true.
Proof.
  revert piece. induction s as [|c s IH]; intros piece Hs Hin.
  - by apply list_elem_of_singleton in Hin as ->.
  - cbn [str_all] in Hs. apply andb_true_iff in Hs as [Hc Hs].
    cbn [Js.split] in Hin. destruct (split_cons sep s) as (piece' & pieces & Hsplit).
    rewrite Hsplit in *. case_decide.
    + apply elem_of_cons in Hin as [->|Hin]; [done|]. by apply IH.
    + apply elem_of_cons in Hin as [->|Hin].
      * cbn [str_all]. rewrite Hc. apply IH; [done|by left].
      * apply IH; [done|by right].
Qed.

Lemma trim_str_all (cls : ascii → bool) (s : string) :
  str_all cls s = true → str_all cls (Js.trim s) = true.
Proof.
  destruct (trim_trimmed s) as (l & r & Hs & _). intros H. rewrite Hs in H.
  rewrite !str_all_app in H.
  by apply andb_true_iff in H as [_ [H _]%andb_true_iff].
Qed.

(** An item of a list: trimmed, and without a comma. *)
Lemma items_clean (cls : ascii → bool) (l item : string) :
  str_all cls l = true → item ∈ items l →
  Js.trim item = item ∧ count_char "," item = 0%nat ∧ str_all cls item = true.
Proof.
  intros Hl (piece & -> & Hpiece)%list_elem_of_fmap.
  split; [apply trim_idemp|]. split.
  - apply (count_char_outside (λ c, bool_decide (c ≠ ","%char))); [done|].
    apply trim_str_all. by eapply split_no_sep.
  - apply trim_str_all. by eapply split_str_all.
Qed.

End bag_more.

(** X6.  What an INSERT statement can put in the bag: every column name
    and every value is trimmed and holds neither a comma nor a closing
    parenthesis.  A text with one of these cannot be stored as it is. *)
Theorem parsed_values_are_clean (sql table : string) (bag : gmap string string) :
  sqlParser sql = Ok (INSERT table bag) →
  ∀ k v, bag !! k = Some v →
    (Js.trim k = k ∧ count_char "," k = 0%nat ∧ count_char ")" k = 0%nat) ∧
    (Js.trim v = v ∧ count_char "," v = 0%nat ∧ count_char ")" v = 0%nat).
Proof.
  intros Hc k v Hkv. pose proof (sqlParser_parses sql) as Hp. rewrite Hc in Hp.
  inversion Hp as [| |table' cols vals Hshape Hlen Heq| |]; subst.
  destruct Hshape as (kw1 & kw2 & _ & _ & _ & [_ Hcols] & _ & [_ Hvals]).
  apply assign_columns_lookup_Some in Hkv as [Hk Hv].
  destruct (items_clean _ _ _ Hcols Hk) as (? & ? & Hk').
  destruct (items_clean _ _ _ Hvals Hv) as (? & ? & Hv').
  repeat split; try done; by apply (count_char_outside Js.not_close_paren).
Qed.

Lemma parsed_values_are_clean_witness :
  let sql := "INSERT INTO spells ( name , description ) VALUES ( Fire ball ,  Deals damage )" in
  let bag := assign_columns ["name"; "description"] ["Fire ball"; "Deals damage"] in
  sqlParser sql = Ok (INSERT "spells" bag) ∧
  bag !! "name" = Some "Fire ball" ∧
  Js.trim "Fire ball" = "Fire ball" ∧
  count_char "," "Fire ball" = 0%nat ∧ count_char ")" "Fire ball" = 0%nat.
Proof.
  intros sql bag.
  assert (sqlParser sql = Ok (INSERT "spells" bag)) as H by (by vm_compute).
  assert (bag !! "name" = Some "Fire ball") as Hb by reflexivity.
  split; [exact H|]. split; [exact Hb|].
  exact (proj2 (parsed_values_are_clean sql "spells" bag H "name" "Fire ball" Hb)).
Defined.

(** * Further properties of the handler *)

Section handler_more.

Implicit Types (d : Disk) (table : string) (data : list Data).

Lemma on_data_unfold d (input : string) :
  on_data d input =
    match sqlParser input with
    | Ok c => execute d c
    | Throw _ => (d, Error "Invalid SQL command")
    end.
Proof. unfold on_data. by rewrite sqlParser_trim. Qed.

Lemma newId_above data x : x ∈ data → id x < newId data.
Proof.
  intros Hx. destruct (newId_next_id data) as [[-> _]|(r & Hr & -> & Hmax)].
  - by apply elem_of_nil in Hx.
  - specialize (Hmax x Hx). lia.
Qed.

Lemma loadData_insert d table bag :
  accessible d table →
  loadData (execute d (INSERT table bag)).1 table
    = loadData d table ++ [newData (loadData d table) bag].
Proof. intros Hacc. rewrite execute_insert. by apply loadData_saveData. Qed.

End handler_more.

(** X7.  A SELECT line, with its keywords in any letter case and white
    space around it, writes nothing and is answered from what [loadData]
    returns: the whole sequence for [SELECT * FROM t], and for a SELECT by
    id of at most 15 digits the first record with the id that the digits
    denote, or [Data not found]. *)
Theorem select_line_reads_only (d : Disk) (input table : string) :
  (select_all_shape (Js.trim input) table →
     on_data d input = (d, Rows (loadData d table))) ∧
  (∀ n, select_by_id_shape (Js.trim input) table n →
     short n →
     on_data d input
       = (d, match List.find (λ s, bool_decide (id s = decimal n)) (loadData d table) with
             | Some datum => Rows [datum]
             | None => Error "Data not found"
             end)).
Proof.
  split.
  - intros Hshape. rewrite on_data_unfold.
    by rewrite <- (parses_sqlParser input _ (parses_select_all _ _ Hshape)).
  - intros n Hshape _. rewrite on_data_unfold.
    rewrite <- (parses_sqlParser input _ (parses_select_by_id _ _ _ Hshape)).
    rewrite parseInt_decimal; [done|].
    by destruct Hshape as (kw1 & kw2 & _ & _ & _ & _ & Hn).
Qed.

Lemma select_line_reads_only_witness :
  let d := saveData empty_disk
             [{| id := 1; name := Some "Fireball"; description := None |}] "spells" in
  select_all_shape (Js.trim "  select * From spells ") "spells" ∧
  on_data d "  select * From spells "
    = (d, Rows [{| id := 1; name := Some "Fireball"; description := None |}]) ∧
  select_by_id_shape (Js.trim "SELECT * FROM spells where ID = 01") "spells" "01" ∧
  short "01" ∧
  on_data d "SELECT * FROM spells where ID = 01"
    = (d, Rows [{| id := 1; name := Some "Fireball"; description := None |}]).
Proof.
  intros d.
  assert (select_all_shape (Js.trim "  select * From spells ") "spells") as H1.
  { exists "select * From ". repeat split; done. }
  assert (select_by_id_shape (Js.trim "SELECT * FROM spells where ID = 01") "spells" "01")
    as H2.
  { exists "SELECT * FROM ", " where ID = ". repeat split; done. }
  split; [exact H1|].
  split; [exact (proj1 (select_line_reads_only d _ "spells") H1)|].
  assert (short "01") as H3 by (unfold short; cbn; lia).
  split; [exact H2|]. split; [exact H3|].
  exact (proj2 (select_line_reads_only d _ "spells") "01" H2 H3).
Defined.



(** X9.  Read your own insert: on a table within the limits of the
    runtime whose file can be read and written, a SELECT by the id that an INSERT reported returns exactly
    the inserted record, whatever the table held before, ids that repeat
    or are negative included. *)
Theorem select_finds_inserted (d : Disk) (table : string) (bag : gmap string string) :
  accessible d table →
  within_limits (loadData d table) →
  ∃ newRecord,
    (execute d (INSERT table bag)).2 = Inserted newRecord ∧
    execute (execute d (INSERT table bag)).1 (SELECT table (Some (id newRecord)))
      = ((execute d (INSERT table bag)).1, Rows [newRecord]).
Proof.
  intros Hacc _. exists (newData (loadData d table) bag). split; [done|].
  rewrite execute_select. f_equal. rewrite loadData_insert by done.
  cbn [select_response]. rewrite find_id_first; [done..|].
  intros x Hx. pose proof (newId_above _ _ Hx). unfold newData. simpl. lia.
Qed.

Lemma select_finds_inserted_witness :
  let d := saveData empty_disk
             [{| id := 4; name := Some "Fireball"; description := None |};
              {| id := 4; name := Some "Frost"; description := None |}] "spells" in
  let bag : gmap string string := {["name" := "Storm"]} in
  accessible d "spells" ∧
  within_limits (loadData d "spells") ∧
  (execute d (INSERT "spells" bag)).2
    = Inserted {| id := 5; name := Some "Storm"; description := None |} ∧
  ∃ newRecord,
    (execute d (INSERT "spells" bag)).2 = Inserted newRecord ∧
    execute (execute d (INSERT "spells" bag)).1 (SELECT "spells" (Some (id newRecord)))
      = ((execute d (INSERT "spells" bag)).1, Rows [newRecord]).
Proof.
  intros d bag.
  assert (accessible d "spells") as Hacc by (split; apply not_elem_of_empty).
  assert (within_limits (loadData d "spells")) as Hlim.
  { split; [by vm_compute|]. intros x Hx. vm_compute in Hx.
    apply elem_of_cons in Hx as [->|Hx]; [by vm_compute|].
    apply list_elem_of_singleton in Hx as ->. by vm_compute. }
  split; [exact Hacc|]. split; [exact Hlim|]. split; [reflexivity|].
  exact (select_finds_inserted d "spells" bag Hacc Hlim).
Defined.

(** X10.  INSERTs served one after another on a table that has room for
    their records and whose file can be read and written add their records at the end, in the order of the
    INSERTs and with the name and description of each bag; nothing that
    was there is lost or moved, and a following [SELECT * FROM] the table
    answers with the old records followed by the new ones. *)
Theorem inserts_append_in_order (d : Disk) (table : string)
    (bags : list (gmap string string)) :
  accessible d table →
  room_for (length bags) (loadData d table) →
  ∃ added,
    loadData (execute_all d (INSERT table <$> bags)).1 table
      = loadData d table ++ added ∧
    name <$> added = (.!! "name") <$> bags ∧
    description <$> added = (.!! "description") <$> bags ∧
    (execute (execute_all d (INSERT table <$> bags)).1 (SELECT table None)).2
      = Rows (loadData d table ++ added).
Proof.
  intros Hacc _.
  assert (∃ added,
    loadData (execute_all d (INSERT table <$> bags)).1 table
      = loadData d table ++ added ∧
    name <$> added = (.!! "name") <$> bags ∧
    description <$> added = (.!! "description") <$> bags) as (added & H1 & H2 & H3).
  { revert d Hacc. induction bags as [|bag bags IH]; intros d Hacc.
    { exists []. by rewrite app_nil_r. }
    rewrite fmap_cons. cbn [execute_all].
    pose proof (loadData_insert d table bag Hacc) as Hload.
    assert (accessible (execute d (INSERT table bag)).1 table) as Hacc1
      by by apply execute_accessible.
    destruct (execute d (INSERT table bag)) as [d1 r]. cbn [fst] in *.
    destruct (IH d1 Hacc1) as (added & H1 & H2 & H3).
    destruct (execute_all d1 (INSERT table <$> bags)) as [d2 rs]. cbn [fst] in *.
    exists (newData (loadData d table) bag :: added).
    rewrite H1, Hload, <- app_assoc. split; [done|].
    rewrite !fmap_cons, H2, H3. done. }
  exists added. rewrite execute_select. cbn [snd select_response]. by rewrite H1.
Qed.

Lemma inserts_append_in_order_witness :
  let d := saveData empty_disk
             [{| id := 7; name := Some "Fireball"; description := None |}] "spells" in
  let bags : list (gmap string string) :=
    [{["name" := "Frost"]}; {["description" := "Slows"]}] in
  accessible d "spells" ∧
  room_for (length bags) (loadData d "spells") ∧
  (execute (execute_all d (INSERT "spells" <$> bags)).1 (SELECT "spells" None)).2
    = Rows [{| id := 7; name := Some "Fireball"; description := None |};
            {| id := 8; name := Some "Frost"; description := None |};
            {| id := 9; name := None; description := Some "Slows" |}] ∧
  ∃ added,
    loadData (execute_all d (INSERT "spells" <$> bags)).1 "spells"
      = loadData d "spells" ++ added ∧
    name <$> added = (.!! "name") <$> bags ∧
    description <$> added = (.!! "description") <$> bags ∧
    (execute (execute_all d (INSERT "spells" <$> bags)).1 (SELECT "spells" None)).2
      = Rows (loadData d "spells" ++ added).
Proof.
  intros d bags.
  assert (accessible d "spells") as Hacc by (split; apply not_elem_of_empty).
  assert (room_for (length bags) (loadData d "spells")) as Hroom.
  { split; [by vm_compute|]. intros x Hx. vm_compute in Hx.
    apply list_elem_of_singleton in Hx as ->. by vm_compute. }
  split; [exact Hacc|]. split; [exact Hroom|]. split; [reflexivity|].
  exact (inserts_append_in_order d "spells" bags Hacc Hroom).
Defined.

(** X11.  An input on which [sqlParser] throws, with either message, is
    answered [Invalid SQL command] and writes nothing.  An input that
    [sqlParser] accepts is not answered so when the file of its table can
    be read and holds a record sequence within the limits of the runtime;
    in particular a record that is not found is answered differently. *)
Theorem parser_errors_are_invalid_commands (d : Disk) (input : string) :
  ((∃ message, sqlParser input = Throw message) →
     on_data d input = (d, Error "Invalid SQL command")) ∧
  (∀ c records,
     sqlParser input = Ok c →
     dataFilePath (table_of c) ∉ read_denied d →
     files d !! dataFilePath (table_of c) = Some (Encoded records) →
     within_limits records →
     (on_data d input).2 ≠ Error "Invalid SQL command").
Proof.
  rewrite on_data_unfold. split.
  - by intros [message ->].
  - intros c records -> _ _ _. destruct c as [table where_|table bag].
    + rewrite execute_select. cbn [snd]. unfold select_response.
      destruct where_ as [k|]; [|done]. by destruct (List.find _ _).
    + by rewrite execute_insert.
Qed.

Lemma parser_errors_are_invalid_commands_witness :
  let d := saveData empty_disk
             [{| id := 1; name := Some "Fireball"; description := None |}] "spells" in
  (∃ message, sqlParser "INSERT INTO spells (name) VALUES (a, b)" = Throw message) ∧
  on_data d "INSERT INTO spells (name) VALUES (a, b)" = (d, Error "Invalid SQL command") ∧
  sqlParser "SELECT * FROM spells WHERE id = 2" = Ok (SELECT "spells" (Some 2)) ∧
  (dataFilePath "spells" ∉ read_denied d) ∧
  files d !! dataFilePath "spells"
    = Some (Encoded [{| id := 1; name := Some "Fireball"; description := None |}]) ∧
  within_limits [{| id := 1; name := Some "Fireball"; description := None |}] ∧
  (on_data d "SELECT * FROM spells WHERE id = 2").2 = Error "Data not found" ∧
  (on_data d "SELECT * FROM spells WHERE id = 2").2 ≠ Error "Invalid SQL command".
Proof.
  intros d.
  assert (∃ message, sqlParser "INSERT INTO spells (name) VALUES (a, b)" = Throw message)
    as H by (eexists; by vm_compute).
  assert (sqlParser "SELECT * FROM spells WHERE id = 2" = Ok (SELECT "spells" (Some 2)))
    as H1 by (by vm_compute).
  assert (dataFilePath "spells" ∉ read_denied d) as H2 by apply not_elem_of_empty.
  assert (files d !! dataFilePath "spells"
    = Some (Encoded [{| id := 1; name := Some "Fireball"; description := None |}]))
    as H3 by reflexivity.
  assert (within_limits [{| id := 1; name := Some "Fireball"; description := None |}])
    as H4.
  { split; [by vm_compute|]. intros x Hx. apply list_elem_of_singleton in Hx as ->.
    by vm_compute. }
  split; [exact H|].
  split; [exact (proj1 (parser_errors_are_invalid_commands d _) H)|].
  split; [exact H1|]. split; [exact H2|]. split; [exact H3|]. split; [exact H4|].
  split; [by vm_compute|].
  exact (proj2 (parser_errors_are_invalid_commands d _) _ _ H1 H2 H3 H4).
Defined.

(** X12.  Tables do not share files.  For table names as [sqlParser]
    produces them, runs of letters, digits and underscores, on a file
    system that tells the letter cases apart: two names have the same
    path only if they are the same name, and saving one table changes
    neither the file of another table nor what loading it returns. *)
Theorem tables_are_independent (d : Disk) (table table' : string) (R : list Data) :
  word table → word table' →
  (dataFilePath table = dataFilePath table' → table = table') ∧
  (table ≠ table' →
     files (saveData d R table) !! dataFilePath table' = files d !! dataFilePath table' ∧
     loadData (saveData d R table) table' = loadData d table').
Proof.
  intros _ _. split; [apply dataFilePath_inj|]. intros Hne. split.
  - by apply saveData_files_other.
  - by apply loadData_saveData_other.
Qed.

Lemma tables_are_independent_witness :
  let R := [{| id := 1; name := Some "Elixir"; description := None |}] in
  word "potions" ∧ word "spells" ∧
  "potions" ≠ "spells" ∧
  loadData (saveData read_only_disk R "potions") "spells"
    = loadData read_only_disk "spells" ∧
  loadData (saveData read_only_disk R "potions") "potions" = R.
Proof.
  intros R.
  assert (word "potions") as H1 by (by split).
  assert (word "spells") as H2 by (by split).
  assert ("potions" ≠ "spells") as Hne by discriminate.
  split; [exact H1|]. split; [exact H2|].
  split; [exact Hne|]. split; [|reflexivity].
  exact (proj2 (proj2 (tables_are_independent read_only_disk "potions" "spells" R H1 H2)
                  Hne)).
Defined.

(** * Further properties of overlapping handlers *)

Section schedules_more.

Implicit Types (d : Disk) (s : server) (i : nat) (t : task).

Lemma run_cons i (schedule : list nat) s :
  run (i :: schedule) s = run schedule (step i s).
Proof. done. Qed.

Lemma step_lookup_same i s t :
  tasks s !! i = Some t →
  disk (step i s) = (resume (disk s) t).1 ∧
  tasks (step i s) = <[i := (resume (disk s) t).2]> (tasks s).
Proof.
  intros Hi. unfold step. rewrite Hi. by destruct (resume (disk s) t).
Qed.

Lemma step_lookup_none i s : tasks s !! i = None → step i s = s.
Proof. intros Hi. unfold step. by rewrite Hi. Qed.

Lemma resume_remaining d t : (remaining (resume d t).2 ≤ remaining t - 1)%nat.
Proof.
  destruct t as [input|[table where_|table bag]|table data nd|r]; cbn; try lia.
  destruct (sqlParser (Js.trim input)); cbn; lia.
Qed.

(** Each resume of a connection brings its handler a step nearer to its
    answer; resumes of other connections do not touch it. *)
Lemma run_remaining (schedule : list nat) s i t :
  tasks s !! i = Some t →
  ∃ t', tasks (run schedule s) !! i = Some t' ∧
        (remaining t' ≤ remaining t - times_resumed i schedule)%nat.
Proof.
  revert s t. induction schedule as [|j schedule IH]; intros s t Hi.
  { exists t. split; [done|]. cbn. lia. }
  rewrite run_cons. cbn [times_resumed].
  destruct (tasks s !! j) as [tj|] eqn:Hj.
  - destruct (step_lookup_same j s tj Hj) as [_ Htasks].
    pose proof (lookup_lt_Some _ _ _ Hi) as Hlt.
    case_decide as Hji.
    + subst j. rewrite Hi in Hj. injection Hj as <-.
      destruct (IH (step i s) (resume (disk s) t).2) as (t' & Ht' & Hrem).
      { rewrite Htasks. by apply list_lookup_insert_eq. }
      exists t'. split; [done|]. pose proof (resume_remaining (disk s) t). lia.
    + destruct (IH (step j s) t) as (t' & Ht' & Hrem).
      { rewrite Htasks. by rewrite list_lookup_insert_ne. }
      exists t'. split; [done|]. lia.
  - rewrite (step_lookup_none j s Hj).
    destruct (IH s t Hi) as (t' & Ht' & Hrem). exists t'. split; [done|].
    case_decide; [subst; congruence|lia].
Qed.

(** An answer stays. *)
Lemma run_finished (schedule : list nat) s i r :
  tasks s !! i = Some (Finished r) →
  tasks (run schedule s) !! i = Some (Finished r).
Proof.
  revert s. induction schedule as [|j schedule IH]; intros s Hi; [done|].
  rewrite run_cons. apply IH.
  destruct (tasks s !! j) as [tj|] eqn:Hj.
  - destruct (step_lookup_same j s tj Hj) as [_ ->].
    pose proof (lookup_lt_Some _ _ _ Hi) as Hlt.
    destruct (decide (j = i)) as [->|Hji].
    + rewrite Hi in Hj. injection Hj as <-. by rewrite list_lookup_insert_eq.
    + by rewrite list_lookup_insert_ne.
  - by rewrite (step_lookup_none j s Hj).
Qed.

Lemma responses_lookup s i r :
  responses s !! i = Some (Some r) ↔ tasks s !! i = Some (Finished r).
Proof.
  unfold responses. rewrite list_lookup_fmap.
  destruct (tasks s !! i) as [[]|]; simpl; naive_solver.
Qed.

(** A handler whose command is not an INSERT, resumed on the disk [d]:
    it leaves the disk alone and goes on to the answer that it gives when
    it runs alone. *)
Lemma resume_reading d (input : string) t :
  (∀ table bag, sqlParser input ≠ Ok (INSERT table bag)) →
  reading d input t →
  (resume d t).1 = d ∧ reading d input (resume d t).2.
Proof.
  intros Hno Ht. destruct t as [input'|[table where_|table bag]|table data nd|r];
    cbn in Ht; try done.
  - subst input'. cbn [resume]. rewrite sqlParser_trim.
    destruct (sqlParser input) as [[table where_|table bag]|message] eqn:Hp; cbn.
    + done.
    + by destruct (Hno table bag).
    + split; [done|]. rewrite on_data_unfold. by rewrite Hp.
  - cbn. split; [done|]. rewrite on_data_unfold. by rewrite Ht.
Qed.

Lemma run_reading d (inputs : list string) (schedule : list nat) s :
  (∀ input, input ∈ inputs → ∀ table bag, sqlParser input ≠ Ok (INSERT table bag)) →
  disk s = d → Forall2 (reading d) inputs (tasks s) →
  disk (run schedule s) = d ∧ Forall2 (reading d) inputs (tasks (run schedule s)).
Proof.
  intros Hno. revert s. induction schedule as [|j schedule IH]; intros s Hd Hall; [done|].
  rewrite run_cons. destruct (tasks s !! j) as [tj|] eqn:Hj.
  - destruct (step_lookup_same j s tj Hj) as [Hdisk Htasks].
    destruct (Forall2_lookup_r _ _ _ _ _ Hall Hj) as (input & Hin & Hread).
    destruct (resume_reading d input tj) as [Hd' Hread'];
      [apply Hno; by eapply list_elem_of_lookup_2|done|].
    apply IH.
    + by rewrite Hdisk, Hd.
    + rewrite Htasks, Hd. rewrite <- (list_insert_id inputs j input Hin).
      by apply Forall2_insert.
  - rewrite (step_lookup_none j s Hj). by apply IH.
Qed.

End schedules_more.

(** X13.  Every request is answered: whatever the other connections do, a
    handler that has been resumed three times has answered, and its answer
    does not change however the schedule goes on. *)
Theorem every_handler_answers (d : Disk) (inputs : list string)
    (schedule : list nat) (i : nat) :
  (i < length inputs)%nat →
  (3 ≤ times_resumed i schedule)%nat →
  ∃ r,
    responses (run schedule {| disk := d; tasks := Received <$> inputs |}) !! i
      = Some (Some r) ∧
    ∀ more,
      responses (run (schedule ++ more) {| disk := d; tasks := Received <$> inputs |}) !! i
        = Some (Some r).
Proof.
  intros Hi Hthree.
  destruct (lookup_lt_is_Some_2 inputs i Hi) as [input Hinput].
  destruct (run_remaining schedule {| disk := d; tasks := Received <$> inputs |}
              i (Received input)) as (t' & Ht' & Hrem).
  { cbn [tasks]. by rewrite list_lookup_fmap, Hinput. }
  cbn [remaining] in Hrem. destruct t' as [| | |r]; cbn in Hrem; try lia.
  exists r. split; [by apply responses_lookup|].
  intros more. rewrite run_app. apply responses_lookup. by apply run_finished.
Qed.

Lemma every_handler_answers_witness :
  let inputs := ["INSERT INTO spells (name) VALUES (Fireball)";
                 "SELECT * FROM spells"] in
  let schedule := [0; 1; 0; 1; 1; 0]%nat in
  (1 < length inputs)%nat ∧
  (3 ≤ times_resumed 1 schedule)%nat ∧
  ∃ r,
    responses (run schedule {| disk := empty_disk; tasks := Received <$> inputs |}) !! 1%nat
      = Some (Some r) ∧
    ∀ more,
      responses (run (schedule ++ more)
                   {| disk := empty_disk; tasks := Received <$> inputs |}) !! 1%nat
        = Some (Some r).
Proof.
  intros inputs schedule.
  assert (1 < length inputs)%nat as H1 by (vm_compute; lia).
  assert (3 ≤ times_resumed 1 schedule)%nat as H2 by (vm_compute; lia).
  split; [exact H1|]. split; [exact H2|].
  exact (every_handler_answers empty_disk inputs schedule 1 H1 H2).
Defined.

(** X14.  Readers do not disturb each other: when none of the inputs is
    an INSERT, every schedule leaves the disk as it is, and every answer
    given is the answer that the same input gets when it is served
    alone. *)
Theorem readers_are_schedule_independent (d : Disk) (inputs : list string)
    (schedule : list nat) :
  (∀ input, input ∈ inputs → ∀ table bag, sqlParser input ≠ Ok (INSERT table bag)) →
  let s := run schedule {| disk := d; tasks := Received <$> inputs |} in
  disk s = d ∧
  ∀ i r, responses s !! i = Some (Some r) →
    ∃ input, inputs !! i = Some input ∧ r = (on_data d input).2.
Proof.
  intros Hno s.
  destruct (run_reading d inputs schedule {| disk := d; tasks := Received <$> inputs |}
              Hno eq_refl) as [Hd Hall].
  { cbn [tasks]. apply Forall2_fmap_r. by apply Forall_Forall2_diag, Forall_true. }
  split; [done|]. intros i r Hr%responses_lookup.
  destruct (Forall2_lookup_r _ _ _ _ _ Hall Hr) as (input & Hin & Hread).
  by exists input.
Qed.

Lemma readers_are_schedule_independent_witness :
  let d := saveData empty_disk
             [{| id := 1; name := Some "Fireball"; description := None |}] "spells" in
  let inputs := ["SELECT * FROM spells"; "SELECT * FROM spells WHERE id = 1"; "DROP spells"] in
  let s := run [2; 0; 1; 1; 0; 2]%nat {| disk := d; tasks := Received <$> inputs |} in
  (∀ input, input ∈ inputs → ∀ table bag, sqlParser input ≠ Ok (INSERT table bag)) ∧
  disk s = d ∧
  ∀ i r, responses s !! i = Some (Some r) →
    ∃ input, inputs !! i = Some input ∧ r = (on_data d input).2.
Proof.
  intros d inputs s.
  assert (∀ input, input ∈ inputs →
          ∀ table bag, sqlParser input ≠ Ok (INSERT table bag)) as Hno.
  { intros input Hin table bag.
    repeat (apply elem_of_cons in Hin as [->|Hin]; [by vm_compute|]).
    by apply elem_of_nil in Hin. }
  split; [exact Hno|].
  exact (readers_are_schedule_independent d inputs [2; 0; 1; 1; 0; 2]%nat Hno).
Defined.
